(** * Naive Bayes spam classifier: a shallow embedding of
      [naive_bayes/naive_bayes_classifier.py] and the properties of
      [train], [predict] and [accuracy].

    Numbers.  Every probability the classifier stores is the result of ONE
    true division of two Python integers.  Python rounds that quotient
    correctly to binary64, so the model keeps the exact quotient (a
    canonical rational, [Qc]) and [to_float] gives the binary64 value the
    Python object holds (for numerator and denominator below 2^53).
    Statements about stored probabilities are about the exact quotients.
    Direct-mode scores are computed as the code computes them, by binary64
    multiplications ([SpecFloat], precision 53, emax 1024).  Log-mode
    scores use [np.log], whose rounding depends on the platform.  The
    model keeps what rounding cannot change: [np.log] is minus infinity
    at 0, nan below 0 and finite above 0, and sums propagate minus
    infinity and nan.  A finite log score is represented by the real
    number its binary64 value approximates; no statement below depends on
    the outcome of comparing two finite log scores, which in the code is
    decided by the rounded values.

    Containers.  The four [defaultdict]s are [gmap]s together with the
    read-inserts-the-default behaviour of [defaultdict.__getitem__]; the
    vocabulary [words] is a [gset].  A document is the list of tokens the
    loop [for word in email] visits. *)

From Stdlib Require Import ZArith QArith Qcanon Reals Qreals SpecFloat Lra Lia.
From stdpp Require Import base gmap sets list strings.

(** ** Model state: the instance attributes set by [__init__] *)

Record classifier := Classifier {
  spam_word_count : gmap string nat;
  ham_word_count : gmap string nat;
  spam_email_count : nat;
  ham_email_count : nat;
  total_emails : nat;
  p_spam : Qc;
  p_ham : Qc;
  p_word_given_spam : gmap string Qc;
  p_word_given_ham : gmap string Qc;
  words : gset string
}.

Definition init : classifier :=
  {| spam_word_count := ∅; ham_word_count := ∅;
     spam_email_count := 0; ham_email_count := 0; total_emails := 0;
     p_spam := 0%Qc; p_ham := 0%Qc;
     p_word_given_spam := ∅; p_word_given_ham := ∅;
     words := ∅ |}.

(** Attribute assignment [self.f = v], one function per attribute. *)

Definition with_spam_word_count (v : gmap string nat) (s : classifier) : classifier :=
  Classifier v (ham_word_count s) (spam_email_count s) (ham_email_count s)
    (total_emails s) (p_spam s) (p_ham s) (p_word_given_spam s)
    (p_word_given_ham s) (words s).

Definition with_ham_word_count (v : gmap string nat) (s : classifier) : classifier :=
  Classifier (spam_word_count s) v (spam_email_count s) (ham_email_count s)
    (total_emails s) (p_spam s) (p_ham s) (p_word_given_spam s)
    (p_word_given_ham s) (words s).

Definition with_spam_email_count (v : nat) (s : classifier) : classifier :=
  Classifier (spam_word_count s) (ham_word_count s) v (ham_email_count s)
    (total_emails s) (p_spam s) (p_ham s) (p_word_given_spam s)
    (p_word_given_ham s) (words s).

Definition with_ham_email_count (v : nat) (s : classifier) : classifier :=
  Classifier (spam_word_count s) (ham_word_count s) (spam_email_count s) v
    (total_emails s) (p_spam s) (p_ham s) (p_word_given_spam s)
    (p_word_given_ham s) (words s).

Definition with_total_emails (v : nat) (s : classifier) : classifier :=
  Classifier (spam_word_count s) (ham_word_count s) (spam_email_count s)
    (ham_email_count s) v (p_spam s) (p_ham s) (p_word_given_spam s)
    (p_word_given_ham s) (words s).

Definition with_p_spam (v : Qc) (s : classifier) : classifier :=
  Classifier (spam_word_count s) (ham_word_count s) (spam_email_count s)
    (ham_email_count s) (total_emails s) v (p_ham s) (p_word_given_spam s)
    (p_word_given_ham s) (words s).

Definition with_p_ham (v : Qc) (s : classifier) : classifier :=
  Classifier (spam_word_count s) (ham_word_count s) (spam_email_count s)
    (ham_email_count s) (total_emails s) (p_spam s) v (p_word_given_spam s)
    (p_word_given_ham s) (words s).

Definition with_p_word_given_spam (v : gmap string Qc) (s : classifier) : classifier :=
  Classifier (spam_word_count s) (ham_word_count s) (spam_email_count s)
    (ham_email_count s) (total_emails s) (p_spam s) (p_ham s) v
    (p_word_given_ham s) (words s).

Definition with_p_word_given_ham (v : gmap string Qc) (s : classifier) : classifier :=
  Classifier (spam_word_count s) (ham_word_count s) (spam_email_count s)
    (ham_email_count s) (total_emails s) (p_spam s) (p_ham s)
    (p_word_given_spam s) v (words s).

Definition with_words (v : gset string) (s : classifier) : classifier :=
  Classifier (spam_word_count s) (ham_word_count s) (spam_email_count s)
    (ham_email_count s) (total_emails s) (p_spam s) (p_ham s)
    (p_word_given_spam s) (p_word_given_ham s) v.

(** ** Methods run in a state-and-exception monad over the instance *)

Inductive exn := ZeroDivisionError.

Inductive outcome (A : Type) :=
  | Returns (a : A)
  | Raises (e : exn).

Arguments Returns {A} a.
Arguments Raises {A} e.

Definition M (A : Type) : Type := classifier → outcome A * classifier.

Definition ret {A} (a : A) : M A := λ s, (Returns a, s).

Definition bind {A B} (c : M A) (k : A → M B) : M B :=
  λ s, match c s with
       | (Returns a, s') => k a s'
       | (Raises e, s') => (Raises e, s')
       end.

Definition raise {A} (e : exn) : M A := λ s, (Raises e, s).

Definition gets {A} (f : classifier → A) : M A := λ s, (Returns (f s), s).

Definition modify (f : classifier → classifier) : M unit := λ s, (Returns (), f s).

Notation "'do' x <- c1 ; c2" := (bind c1 (λ x, c2))
  (at level 60, x name, c1 at next level, right associativity).
Notation "'do' ' pat <- c1 ; c2" := (bind c1 (λ x, match x with pat => c2 end))
  (at level 60, pat pattern, c1 at next level, right associativity).
Notation "c1 ;; c2" := (bind c1 (λ _, c2))
  (at level 100, c2 at level 200, right associativity).

(** [for x in xs: body x] *)
Fixpoint for_each {A} (xs : list A) (body : A → M unit) : M unit :=
  match xs with
  | [] => ret ()
  | x :: xs' => body x ;; for_each xs' body
  end.

(** [for x in xs: acc = body acc x], for loops that update local variables *)
Fixpoint for_fold {A B} (xs : list A) (acc : B) (body : B → A → M B) : M B :=
  match xs with
  | [] => ret acc
  | x :: xs' => do acc' <- body acc x; for_fold xs' acc' body
  end.

(** ** [defaultdict] *)

(** The value [d[k]] evaluates to. *)
Definition dd_read {V} (dflt : V) (d : gmap string V) (k : string) : V :=
  default dflt (d !! k).

(** The dictionary after evaluating [d[k]]: a missing key is inserted
    with the default. *)
Definition dd_touch {V} (dflt : V) (d : gmap string V) (k : string) : gmap string V :=
  match d !! k with
  | Some _ => d
  | None => <[k := dflt]> d
  end.

Definition getitem_spam_word_count (word : string) : M nat :=
  λ s, (Returns (dd_read 0 (spam_word_count s) word),
        with_spam_word_count (dd_touch 0 (spam_word_count s) word) s).

Definition getitem_ham_word_count (word : string) : M nat :=
  λ s, (Returns (dd_read 0 (ham_word_count s) word),
        with_ham_word_count (dd_touch 0 (ham_word_count s) word) s).

Definition getitem_p_word_given_spam (word : string) : M Qc :=
  λ s, (Returns (dd_read 0%Qc (p_word_given_spam s) word),
        with_p_word_given_spam (dd_touch 0%Qc (p_word_given_spam s) word) s).

Definition getitem_p_word_given_ham (word : string) : M Qc :=
  λ s, (Returns (dd_read 0%Qc (p_word_given_ham s) word),
        with_p_word_given_ham (dd_touch 0%Qc (p_word_given_ham s) word) s).

Definition setitem_spam_word_count (word : string) (v : nat) : M unit :=
  modify (λ s, with_spam_word_count (<[word := v]> (spam_word_count s)) s).

Definition setitem_ham_word_count (word : string) (v : nat) : M unit :=
  modify (λ s, with_ham_word_count (<[word := v]> (ham_word_count s)) s).

Definition setitem_p_word_given_spam (word : string) (v : Qc) : M unit :=
  modify (λ s, with_p_word_given_spam (<[word := v]> (p_word_given_spam s)) s).

Definition setitem_p_word_given_ham (word : string) (v : Qc) : M unit :=
  modify (λ s, with_p_word_given_ham (<[word := v]> (p_word_given_ham s)) s).

(** ** Numbers *)

Definition Qc_of_nat (n : nat) : Qc := Qc_of_Z (Z.of_nat n).

(** [a / b] on two Python [int]s: true division, [ZeroDivisionError] when
    the divisor is 0. *)
Definition true_div (a b : nat) : M Qc :=
  if decide (b = 0) then raise ZeroDivisionError
  else ret (Qc_of_nat a / Qc_of_nat b)%Qc.

(** ** [train] *)

(** [sum(1 for label in labels if label == l)] *)
Definition count_label (l : string) (labels : list string) : nat :=
  sum_list ((λ _, 1) <$> filter (λ label, label = l) labels).

(** [self.spam_word_count[word] += 1] *)
Definition incr_spam_word_count (word : string) : M unit :=
  do c <- getitem_spam_word_count word;
  setitem_spam_word_count word (c + 1).

Definition incr_ham_word_count (word : string) : M unit :=
  do c <- getitem_ham_word_count word;
  setitem_ham_word_count word (c + 1).

(** Lines 78-84: the counting loop over [zip(emails, labels)]. *)
Definition count_words (emails : list (list string)) (labels : list string) : M unit :=
  for_each (zip emails labels) (λ '(email, label),
    if decide (label = "spam") then for_each email incr_spam_word_count
    else if decide (label = "ham") then for_each email incr_ham_word_count
    else ret ()).

(** Lines 94-95: the body of the loop under Laplace smoothing. *)
Definition smoothed_word (word : string) : M unit :=
  do c <- getitem_spam_word_count word;
  do n <- gets spam_email_count;
  do p <- true_div (c + 1) (n + 2);
  setitem_p_word_given_spam word p ;;
  do c <- getitem_ham_word_count word;
  do n <- gets ham_email_count;
  do p <- true_div (c + 1) (n + 2);
  setitem_p_word_given_ham word p.

(** Lines 98-99: the body of the loop without smoothing. *)
Definition unsmoothed_word (word : string) : M unit :=
  do c <- getitem_spam_word_count word;
  do n <- gets spam_email_count;
  do p <- true_div c n;
  setitem_p_word_given_spam word p ;;
  do c <- getitem_ham_word_count word;
  do n <- gets ham_email_count;
  do p <- true_div c n;
  setitem_p_word_given_ham word p.

(** Lines 69-75: the counters and the priors. *)
Definition count_emails (emails : list (list string)) (labels : list string) : M unit :=
  modify (with_total_emails (length emails)) ;;
  modify (with_spam_email_count (count_label "spam" labels)) ;;
  modify (with_ham_email_count (count_label "ham" labels)) ;;
  do a <- gets spam_email_count;
  do b <- gets total_emails;
  do p <- true_div a b;
  modify (with_p_spam p) ;;
  do a <- gets ham_email_count;
  do b <- gets total_emails;
  do p <- true_div a b;
  modify (with_p_ham p).

(** Lines 88-99.  A Python set is visited in an order the language does
    not fix; [elements] is one such order. *)
Definition word_probabilities (laplace_smoothing : bool) : M unit :=
  do sk <- gets (λ s, dom (spam_word_count s));
  do hk <- gets (λ s, dom (ham_word_count s));
  modify (with_words (sk ∪ hk)) ;;
  do ws <- gets words;
  if laplace_smoothing then for_each (elements ws) smoothed_word
  else for_each (elements ws) unsmoothed_word.

Definition train (emails : list (list string)) (labels : list string)
    (laplace_smoothing : bool) : M unit :=
  count_emails emails labels ;;
  count_words emails labels ;;
  word_probabilities laplace_smoothing.

(** ** Scores *)

(** binary64, as [SpecFloat] defines it *)
Definition b64_of_Z (z : Z) : spec_float := binary_normalize 53 1024 z 0 false.
Definition b64_mul : spec_float → spec_float → spec_float := SFmul 53 1024.
Definition b64_div : spec_float → spec_float → spec_float := SFdiv 53 1024.
(** [a > b] on two floats; false when either is nan *)
Definition b64_gt (a b : spec_float) : bool := SFltb b a.

(** The binary64 value of a stored quotient: numerator and denominator
    converted and divided, one rounding. *)
Definition to_float (q : Qc) : spec_float :=
  b64_div (b64_of_Z (Qnum q)) (b64_of_Z (Zpos (Qden q))).

(** What [np.log] and [+] produce on log scores: minus infinity, nan, or
    a finite value, the latter kept as a real number (see the note on
    numbers above). *)
Inductive logval :=
  | NegInf
  | Fin (r : R)
  | NaN.

Definition np_log (q : Qc) : logval :=
  if decide (q = 0%Qc) then NegInf
  else if decide (0 < q)%Qc then Fin (ln (Q2R q))
  else NaN.

Definition logval_add (a b : logval) : logval :=
  match a, b with
  | NaN, _ | _, NaN => NaN
  | NegInf, _ | _, NegInf => NegInf
  | Fin x, Fin y => Fin (x + y)
  end.

Definition logval_gt (a b : logval) : bool :=
  match a, b with
  | NaN, _ | _, NaN => false
  | NegInf, _ => false
  | Fin _, NegInf => true
  | Fin x, Fin y => if Rgt_dec x y then true else false
  end.

(** ** [predict] *)

(** The two branches of [predict] are the same loop; they differ in how a
    stored probability enters the score ([load]), in the operation that
    folds it in ([combine]: [*=] or [+=]) and in the number type. *)
Section Scoring.
Context {num : Type}.
Variable load : Qc → num.
Variable combine : num → num → num.
Variable gt : num → num → bool.

(** Lines 121-124 and 137-142: one token. *)
Definition score_word (scores : num * num) (word : string) : M (num * num) :=
  do ws <- gets words;
  if decide (word ∈ ws) then
    do a <- getitem_p_word_given_spam word;
    do b <- getitem_p_word_given_ham word;
    ret (combine scores.1 (load a), combine scores.2 (load b))
  else ret scores.

Definition score_email (email : list string) : M (num * num) :=
  do ps <- gets p_spam;
  do ph <- gets p_ham;
  for_fold email (load ps, load ph) score_word.

Definition label_email (y_pred : list string) (email : list string) : M (list string) :=
  do scores <- score_email email;
  if gt scores.1 scores.2 then ret (y_pred ++ ["spam"])
  else ret (y_pred ++ ["ham"]).

Definition predict_loop (emails : list (list string)) : M (list string) :=
  for_fold emails [] label_email.
End Scoring.

Definition predict (emails : list (list string)) (prevent_underflow : bool)
    : M (list string) :=
  if prevent_underflow then predict_loop np_log logval_add logval_gt emails
  else predict_loop to_float b64_mul b64_gt emails.

(** ** [accuracy] *)

Definition accuracy (y_true y_pred : list string) : M Qc :=
  do correct_prediction <-
    for_fold (zip y_true y_pred) 0 (λ c '(yt, yp),
      if decide (yt = yp) then ret (c + 1) else ret c);
  true_div correct_prediction (length y_true).

(** ** Quantities the statements are phrased in *)

(** The number of times [word] is visited by [for word in email]. *)
Definition occurrences_in (word : string) (email : list string) : nat :=
  length (filter (λ x, x = word) email).

(** The number of times [word] is visited in the emails that
    [zip(emails, labels)] pairs with label [l]. *)
Definition occurrences (l word : string) (emails : list (list string))
    (labels : list string) : nat :=
  sum_list ((λ '(email, label),
    if decide (label = l) then occurrences_in word email else 0)
    <$> zip emails labels).

(** A count dictionary after [d[word] += 1] for every token of [email]. *)
Definition add_tokens (email : list string) (d : gmap string nat) : gmap string nat :=
  fold_left (λ d word, <[word := dd_read 0 d word + 1]> d) email d.

(** A count dictionary after the counting loop, for the class [l]. *)
Definition tally (l : string) (emails : list (list string)) (labels : list string)
    (d : gmap string nat) : gmap string nat :=
  fold_left (λ d '(email, label),
    if decide (label = l) then add_tokens email d else d) (zip emails labels) d.

(** The stored conditional probabilities, as [predict] reads them. *)
Definition pw_spam (s : classifier) (word : string) : Qc :=
  dd_read 0%Qc (p_word_given_spam s) word.

Definition pw_ham (s : classifier) (word : string) : Qc :=
  dd_read 0%Qc (p_word_given_ham s) word.

(** The tokens of a document that are scored. *)
Definition scored (s : classifier) (email : list string) : list string :=
  filter (λ word, word ∈ words s) email.

(** The score of a class as the spec words it: the prior, combined with the
    conditional probability of every scored token, once per occurrence. *)
Definition class_score {num} (load : Qc → num) (combine : num → num → num)
    (prior : Qc) (pw : string → Qc) (tokens : list string) : num :=
  fold_left combine (load <$> (pw <$> tokens)) (load prior).

Definition direct_score_spam (s : classifier) (email : list string) : spec_float :=
  class_score to_float b64_mul (p_spam s) (pw_spam s) (scored s email).

Definition direct_score_ham (s : classifier) (email : list string) : spec_float :=
  class_score to_float b64_mul (p_ham s) (pw_ham s) (scored s email).

Definition log_score_spam (s : classifier) (email : list string) : logval :=
  class_score np_log logval_add (p_spam s) (pw_spam s) (scored s email).

Definition log_score_ham (s : classifier) (email : list string) : logval :=
  class_score np_log logval_add (p_ham s) (pw_ham s) (scored s email).

(** The label line 126/144 appends. *)
Definition label_of (spam_wins : bool) : string :=
  if spam_wins then "spam" else "ham".

(** The number of positions at which both sequences have an entry and
    the entries are equal. *)
Definition agreements (y_true y_pred : list string) : nat :=
  length (filter (λ i, y_true !! i = y_pred !! i)
            (seq 0 (min (length y_true) (length y_pred)))).

(** ** The states [train] passes through *)

Definition quotient (a b : nat) : Qc := (Qc_of_nat a / Qc_of_nat b)%Qc.

(** After lines 69-71. *)
Definition counted (emails : list (list string)) (labels : list string)
    (s : classifier) : classifier :=
  with_ham_email_count (count_label "ham" labels)
    (with_spam_email_count (count_label "spam" labels)
      (with_total_emails (length emails) s)).

(** After lines 74-75, when neither division raises. *)
Definition with_priors (s : classifier) : classifier :=
  with_p_ham (quotient (ham_email_count s) (total_emails s))
    (with_p_spam (quotient (spam_email_count s) (total_emails s)) s).

(** After the counting loop. *)
Definition tallied (emails : list (list string)) (labels : list string)
    (s : classifier) : classifier :=
  with_ham_word_count (tally "ham" emails labels (ham_word_count s))
    (with_spam_word_count (tally "spam" emails labels (spam_word_count s)) s).

(** After line 88. *)
Definition with_vocabulary (s : classifier) : classifier :=
  with_words (dom (spam_word_count s) ∪ dom (ham_word_count s)) s.

(** The right-hand sides of lines 94-95 and 98-99. *)
Definition estimate (laplace_smoothing : bool) (count class_count : nat) : Qc :=
  if laplace_smoothing then quotient (count + 1) (class_count + 2)
  else quotient count class_count.

(** After one full pass of the body of the last loop. *)
Definition estimated_word (laplace_smoothing : bool) (s : classifier)
    (word : string) : classifier :=
  with_p_word_given_ham
    (<[word := estimate laplace_smoothing
                 (dd_read 0 (ham_word_count s) word) (ham_email_count s)]>
       (p_word_given_ham s))
    (with_ham_word_count (dd_touch 0 (ham_word_count s) word)
      (with_p_word_given_spam
        (<[word := estimate laplace_smoothing
                     (dd_read 0 (spam_word_count s) word) (spam_email_count s)]>
           (p_word_given_spam s))
        (with_spam_word_count (dd_touch 0 (spam_word_count s) word) s))).

Definition estimated (laplace_smoothing : bool) (ws : list string)
    (s : classifier) : classifier :=
  fold_left (estimated_word laplace_smoothing) ws s.

(** Where the unsmoothed body stops when a class count is 0: in line 98
    when there is no spam email, else in line 99. *)
Definition interrupted_word (s : classifier) (word : string) : classifier :=
  let s1 := with_spam_word_count (dd_touch 0 (spam_word_count s) word) s in
  if decide (spam_email_count s = 0) then s1
  else
    with_ham_word_count (dd_touch 0 (ham_word_count s) word)
      (with_p_word_given_spam
        (<[word := quotient (dd_read 0 (spam_word_count s) word) (spam_email_count s)]>
           (p_word_given_spam s)) s1).

(** The state before the last loop. *)
Definition prepared (emails : list (list string)) (labels : list string)
    (s : classifier) : classifier :=
  with_vocabulary (tallied emails labels (with_priors (counted emails labels s))).

(** The outcome of [train], phase by phase. *)
Definition train_result (emails : list (list string)) (labels : list string)
    (laplace_smoothing : bool) (s : classifier) : outcome unit * classifier :=
  if decide (length emails = 0) then
    (Raises ZeroDivisionError, counted emails labels s)
  else
    let s' := prepared emails labels s in
    if laplace_smoothing
       || bool_decide (spam_email_count s' ≠ 0 ∧ ham_email_count s' ≠ 0)
    then (Returns (), estimated laplace_smoothing (elements (words s')) s')
    else
      match elements (words s') with
      | [] => (Returns (), s')
      | word :: _ => (Raises ZeroDivisionError, interrupted_word s' word)
      end.

(** ** What [predict] computes, without the instance being threaded *)

(** [defaultdict] reads may insert defaults into the two probability
    tables; the states [predict] passes through agree with the one it
    started from on everything it reads. *)
Definition same_reads (s s' : classifier) : Prop :=
  words s' = words s ∧ p_spam s' = p_spam s ∧ p_ham s' = p_ham s ∧
  (∀ word, pw_spam s' word = pw_spam s word) ∧
  (∀ word, pw_ham s' word = pw_ham s word).

(** The pair of scores after one token. *)
Definition scores_after_word {num} (load : Qc → num) (combine : num → num → num)
    (s : classifier) (scores : num * num) (word : string) : num * num :=
  if decide (word ∈ words s)
  then (combine scores.1 (load (pw_spam s word)),
        combine scores.2 (load (pw_ham s word)))
  else scores.

Definition email_scores {num} (load : Qc → num) (combine : num → num → num)
    (s : classifier) (email : list string) : num * num :=
  fold_left (scores_after_word load combine s) email (load (p_spam s), load (p_ham s)).

(** Unfolding the monad operations of a straight-line method body. *)
Ltac run_monad :=
  unfold bind, ret, raise, gets, modify, true_div; simpl.

(** * Properties *)

(** ** The dictionaries *)

Section DefaultDict.
Context {V : Type} (dflt : V).
Implicit Types (d : gmap string V) (k : string).

Lemma dd_read_touch d k k' : dd_read dflt (dd_touch dflt d k) k' = dd_read dflt d k'.
Proof.
  unfold dd_read, dd_touch. destruct (d !! k) eqn:E; [done|].
  destruct (decide (k = k')) as [->|].
  - by rewrite lookup_insert_eq, E.
  - by rewrite lookup_insert_ne.
Qed.

Lemma insert_dd_touch d k v : <[k := v]> (dd_touch dflt d k) = <[k := v]> d.
Proof.
  unfold dd_touch. destruct (d !! k); [done|]. by rewrite insert_insert_eq.
Qed.

Lemma dd_read_insert d k v k' :
  dd_read dflt (<[k := v]> d) k' = if decide (k = k') then v else dd_read dflt d k'.
Proof.
  unfold dd_read. rewrite lookup_insert. by case_decide.
Qed.
End DefaultDict.

(** ** The counting loop *)

Lemma occurrences_in_cons word x email :
  occurrences_in word (x :: email) =
  (if decide (x = word) then 1 else 0) + occurrences_in word email.
Proof.
  unfold occurrences_in. rewrite filter_cons. by case_decide.
Qed.

Lemma add_tokens_read email d word :
  dd_read 0 (add_tokens email d) word = dd_read 0 d word + occurrences_in word email.
Proof.
  revert d. induction email as [|x email IH]; intros d.
  - simpl. unfold occurrences_in. simpl. lia.
  - change (add_tokens (x :: email) d)
      with (add_tokens email (<[x := dd_read 0 d x + 1]> d)).
    rewrite IH, dd_read_insert, occurrences_in_cons.
    case_decide; subst; lia.
Qed.

Lemma for_each_incr_spam email s :
  for_each email incr_spam_word_count s =
  (Returns (), with_spam_word_count (add_tokens email (spam_word_count s)) s).
Proof.
  revert s. induction email as [|x email IH]; intros s.
  - by destruct s.
  - simpl. unfold bind at 1. unfold incr_spam_word_count at 1.
    unfold bind at 1. simpl. rewrite IH. simpl.
    by rewrite insert_dd_touch.
Qed.

Lemma for_each_incr_ham email s :
  for_each email incr_ham_word_count s =
  (Returns (), with_ham_word_count (add_tokens email (ham_word_count s)) s).
Proof.
  revert s. induction email as [|x email IH]; intros s.
  - by destruct s.
  - simpl. unfold bind at 1. unfold incr_ham_word_count at 1.
    unfold bind at 1. simpl. rewrite IH. simpl.
    by rewrite insert_dd_touch.
Qed.

Lemma count_words_run emails labels s :
  count_words emails labels s =
  (Returns (),
   with_ham_word_count (tally "ham" emails labels (ham_word_count s))
     (with_spam_word_count (tally "spam" emails labels (spam_word_count s)) s)).
Proof.
  unfold count_words, tally.
  generalize (zip emails labels) as ps. intros ps.
  revert s. induction ps as [|[email label] ps IH]; intros s.
  - by destruct s.
  - simpl. unfold bind at 1.
    destruct (decide (label = "spam")) as [->|Hs].
    + rewrite for_each_incr_spam, IH. simpl. done.
    + destruct (decide (label = "ham")) as [->|Hh].
      * rewrite for_each_incr_ham, IH. simpl. done.
      * simpl. rewrite IH. by destruct s.
Qed.

Lemma tally_read l emails labels d word :
  dd_read 0 (tally l emails labels d) word =
  dd_read 0 d word + occurrences l word emails labels.
Proof.
  unfold tally, occurrences.
  generalize (zip emails labels) as ps. intros ps.
  revert d. induction ps as [|[email label] ps IH]; intros d.
  - simpl. lia.
  - simpl. rewrite IH. destruct (decide (label = l)).
    + rewrite add_tokens_read. symmetry. apply Nat.add_assoc.
    + done.
Qed.

(** ** [train], phase by phase *)

Lemma count_emails_run emails labels s :
  count_emails emails labels s =
  if decide (length emails = 0)
  then (Raises ZeroDivisionError, counted emails labels s)
  else (Returns (), with_priors (counted emails labels s)).
Proof.
  unfold count_emails. run_monad.
  destruct (decide (length emails = 0)) as [E|E]; [done|].
  simpl. destruct (decide (length emails = 0)); done.
Qed.

Lemma smoothed_word_run word s :
  smoothed_word word s = (Returns (), estimated_word true s word).
Proof.
  unfold smoothed_word. run_monad.
  destruct (decide (spam_email_count s + 2 = 0)); [lia|]. simpl.
  destruct (decide (ham_email_count s + 2 = 0)); [lia|]. done.
Qed.

Lemma unsmoothed_word_run word s :
  spam_email_count s ≠ 0 → ham_email_count s ≠ 0 →
  unsmoothed_word word s = (Returns (), estimated_word false s word).
Proof.
  intros Hs Hh. unfold unsmoothed_word. run_monad.
  destruct (decide (spam_email_count s = 0)); [done|]. simpl.
  destruct (decide (ham_email_count s = 0)); [done|]. done.
Qed.

Lemma unsmoothed_word_raises word s :
  spam_email_count s = 0 ∨ ham_email_count s = 0 →
  unsmoothed_word word s = (Raises ZeroDivisionError, interrupted_word s word).
Proof.
  intros H. unfold unsmoothed_word, interrupted_word. run_monad.
  destruct (decide (spam_email_count s = 0)); [done|]. simpl.
  destruct (decide (ham_email_count s = 0)); [done|]. lia.
Qed.

Lemma for_each_run {A} (f : classifier → A → classifier) body xs s :
  (∀ x s, body x s = (Returns (), f s x)) →
  for_each xs body s = (Returns (), fold_left f xs s).
Proof.
  intros Hbody. revert s. induction xs as [|x xs IH]; intros s; [done|].
  simpl. unfold bind. by rewrite Hbody, IH.
Qed.

Lemma smoothed_loop_run ws s :
  for_each ws smoothed_word s = (Returns (), estimated true ws s).
Proof. apply for_each_run, smoothed_word_run. Qed.

(** The class counts are not touched by the loop body. *)
Lemma estimated_word_counts ls s word :
  spam_email_count (estimated_word ls s word) = spam_email_count s ∧
  ham_email_count (estimated_word ls s word) = ham_email_count s.
Proof. done. Qed.

Lemma unsmoothed_loop_run ws s :
  spam_email_count s ≠ 0 → ham_email_count s ≠ 0 →
  for_each ws unsmoothed_word s = (Returns (), estimated false ws s).
Proof.
  revert s. induction ws as [|w ws IH]; intros s Hs Hh; [done|].
  simpl. unfold bind. rewrite unsmoothed_word_run by done.
  apply IH; by rewrite ?(proj1 (estimated_word_counts _ _ _)).
Qed.

Lemma unsmoothed_loop_raises w ws s :
  ¬ (spam_email_count s ≠ 0 ∧ ham_email_count s ≠ 0) →
  for_each (w :: ws) unsmoothed_word s =
  (Raises ZeroDivisionError, interrupted_word s w).
Proof.
  intros Hc. simpl. unfold bind. rewrite unsmoothed_word_raises; [done|].
  destruct (decide (spam_email_count s = 0)); [by left|].
  destruct (decide (ham_email_count s = 0)); [by right|].
  by destruct Hc.
Qed.

Lemma last_loop_run (ls : bool) s :
  ((if ls then for_each (elements (words s)) smoothed_word
    else for_each (elements (words s)) unsmoothed_word) : M unit) s =
  if ls || bool_decide (spam_email_count s ≠ 0 ∧ ham_email_count s ≠ 0)
  then (Returns (), estimated ls (elements (words s)) s)
  else
    match elements (words s) with
    | [] => (Returns (), s)
    | word :: _ => (Raises ZeroDivisionError, interrupted_word s word)
    end.
Proof.
  destruct ls; [apply smoothed_loop_run|].
  rewrite orb_false_l. case_bool_decide as Hc.
  - destruct Hc. by apply unsmoothed_loop_run.
  - destruct (elements (words s)) as [|w ws]; [done|].
    by apply unsmoothed_loop_raises.
Qed.

Lemma word_probabilities_run (ls : bool) s :
  word_probabilities ls s =
  ((if ls then for_each (elements (words (with_vocabulary s))) smoothed_word
    else for_each (elements (words (with_vocabulary s))) unsmoothed_word)
     : M unit) (with_vocabulary s).
Proof. by destruct ls. Qed.

Lemma train_run emails labels ls s :
  train emails labels ls s = train_result emails labels ls s.
Proof.
  unfold train, train_result, bind at 1.
  rewrite count_emails_run.
  destruct (decide (length emails = 0)); [done|].
  unfold bind at 1. rewrite count_words_run.
  rewrite word_probabilities_run. apply last_loop_run.
Qed.

(** ** Quotients of counts *)

Lemma Qc_of_nat_nonneg n : (0 ≤ Qc_of_nat n)%Qc.
Proof.
  unfold Qc_of_nat. rewrite <- Z2Qc_inj_0.
  apply (proj1 (Z2Qc_inj_le 0 (Z.of_nat n))). lia.
Qed.

Lemma Qc_of_nat_pos n : n ≠ 0 → (0 < Qc_of_nat n)%Qc.
Proof.
  intros. unfold Qc_of_nat. rewrite <- Z2Qc_inj_0.
  apply (proj1 (Z2Qc_inj_lt 0 (Z.of_nat n))). lia.
Qed.

Lemma Qc_of_nat_lt a b : a < b → (Qc_of_nat a < Qc_of_nat b)%Qc.
Proof.
  intros. unfold Qc_of_nat.
  apply (proj1 (Z2Qc_inj_lt (Z.of_nat a) (Z.of_nat b))). lia.
Qed.

Lemma Qc_of_nat_add a b : Qc_of_nat (a + b) = (Qc_of_nat a + Qc_of_nat b)%Qc.
Proof. unfold Qc_of_nat. by rewrite Nat2Z.inj_add, Z2Qc_inj_add. Qed.

Lemma Qc_of_nat_ne_0 n : n ≠ 0 → Qc_of_nat n ≠ 0%Qc.
Proof.
  intros Hn E. apply Qc_of_nat_pos in Hn. rewrite E in Hn.
  by apply Qclt_not_eq in Hn.
Qed.

Lemma quotient_0_l b : quotient 0 b = 0%Qc.
Proof.
  unfold quotient, Qcdiv.
  replace (Qc_of_nat 0) with 0%Qc by (by apply Qc_is_canon).
  apply Qcmult_0_l.
Qed.

Lemma quotient_pos a b : a ≠ 0 → b ≠ 0 → (0 < quotient a b)%Qc.
Proof.
  intros Ha Hb. unfold quotient, Qcdiv.
  apply Qcmult_pos_pos; [|apply Qcinv_pos]; by apply Qc_of_nat_pos.
Qed.

Lemma quotient_nonneg a b : (0 ≤ quotient a b)%Qc.
Proof.
  destruct (decide (a = 0)) as [->|Ha].
  { rewrite quotient_0_l. apply Qcle_refl. }
  destruct (decide (b = 0)) as [->|Hb].
  { unfold quotient, Qcdiv.
    replace (Qc_of_nat 0) with 0%Qc by (by apply Qc_is_canon).
    replace (/ 0)%Qc with 0%Qc by (by apply Qc_is_canon).
    rewrite Qcmult_0_r. apply Qcle_refl. }
  apply Qclt_le_weak. by apply quotient_pos.
Qed.

Lemma quotient_diag b : b ≠ 0 → quotient b b = 1%Qc.
Proof.
  intros Hb. unfold quotient, Qcdiv. apply Qcmult_inv_r.
  by apply Qc_of_nat_ne_0.
Qed.

Lemma quotient_add a c b :
  (quotient a b + quotient c b)%Qc = quotient (a + c) b.
Proof.
  unfold quotient, Qcdiv. rewrite Qc_of_nat_add. ring.
Qed.

Lemma quotient_lt_1 a b : a < b → (quotient a b < 1)%Qc.
Proof.
  intros Hab. assert (b ≠ 0) as Hb by lia.
  rewrite <- (quotient_diag b Hb). unfold quotient, Qcdiv.
  apply Qcmult_lt_mono_pos_r.
  - apply Qcinv_pos. by apply Qc_of_nat_pos.
  - by apply Qc_of_nat_lt.
Qed.

(** ** The last loop of [train] *)

Lemma fold_left_frame {A B} (P : classifier → B) (f : classifier → A → classifier) xs s :
  (∀ s x, P (f s x) = P s) → P (fold_left f xs s) = P s.
Proof.
  intros Hf. revert s. induction xs as [|x xs IH]; intros s; [done|].
  simpl. by rewrite IH, Hf.
Qed.

Lemma estimated_spam_email_count ls ws s :
  spam_email_count (estimated ls ws s) = spam_email_count s.
Proof. by apply fold_left_frame. Qed.

Lemma estimated_ham_email_count ls ws s :
  ham_email_count (estimated ls ws s) = ham_email_count s.
Proof. by apply fold_left_frame. Qed.

Lemma estimated_total_emails ls ws s :
  total_emails (estimated ls ws s) = total_emails s.
Proof. by apply fold_left_frame. Qed.

Lemma estimated_p_spam ls ws s : p_spam (estimated ls ws s) = p_spam s.
Proof. by apply fold_left_frame. Qed.

Lemma estimated_p_ham ls ws s : p_ham (estimated ls ws s) = p_ham s.
Proof. by apply fold_left_frame. Qed.

Lemma estimated_words ls ws s : words (estimated ls ws s) = words s.
Proof. by apply fold_left_frame. Qed.

Lemma estimated_spam_read ls ws s word :
  dd_read 0 (spam_word_count (estimated ls ws s)) word =
  dd_read 0 (spam_word_count s) word.
Proof.
  apply (fold_left_frame (λ s, dd_read 0 (spam_word_count s) word)).
  intros s0 x. simpl. apply dd_read_touch.
Qed.

Lemma estimated_ham_read ls ws s word :
  dd_read 0 (ham_word_count (estimated ls ws s)) word =
  dd_read 0 (ham_word_count s) word.
Proof.
  apply (fold_left_frame (λ s, dd_read 0 (ham_word_count s) word)).
  intros s0 x. simpl. apply dd_read_touch.
Qed.

Lemma estimated_p_word_given_spam ls ws s word :
  p_word_given_spam (estimated ls ws s) !! word =
  if decide (word ∈ ws)
  then Some (estimate ls (dd_read 0 (spam_word_count s) word) (spam_email_count s))
  else p_word_given_spam s !! word.
Proof.
  revert s. induction ws as [|x ws IH]; intros s.
  - destruct (decide (word ∈ [])) as [H|H]; [|done].
    by apply not_elem_of_nil in H.
  - change (estimated ls (x :: ws) s) with (estimated ls ws (estimated_word ls s x)).
    rewrite IH. cbn [estimated_word with_p_word_given_ham with_ham_word_count with_p_word_given_spam with_spam_word_count p_word_given_spam p_word_given_ham spam_word_count ham_word_count spam_email_count ham_email_count].
    rewrite dd_read_touch.
    destruct (decide (word ∈ ws)) as [Hin|Hin];
      destruct (decide (word ∈ x :: ws)) as [Hin'|Hin']; try done.
    + destruct Hin'. apply elem_of_cons. by right.
    + apply elem_of_cons in Hin' as [->|?]; [|done].
      by rewrite lookup_insert_eq.
    + rewrite lookup_insert_ne; [done|].
      intros ->. apply Hin', elem_of_cons. by left.
Qed.

Lemma estimated_p_word_given_ham ls ws s word :
  p_word_given_ham (estimated ls ws s) !! word =
  if decide (word ∈ ws)
  then Some (estimate ls (dd_read 0 (ham_word_count s) word) (ham_email_count s))
  else p_word_given_ham s !! word.
Proof.
  revert s. induction ws as [|x ws IH]; intros s.
  - destruct (decide (word ∈ [])) as [H|H]; [|done].
    by apply not_elem_of_nil in H.
  - change (estimated ls (x :: ws) s) with (estimated ls ws (estimated_word ls s x)).
    rewrite IH. cbn [estimated_word with_p_word_given_ham with_ham_word_count with_p_word_given_spam with_spam_word_count p_word_given_spam p_word_given_ham spam_word_count ham_word_count spam_email_count ham_email_count].
    rewrite dd_read_touch.
    destruct (decide (word ∈ ws)) as [Hin|Hin];
      destruct (decide (word ∈ x :: ws)) as [Hin'|Hin']; try done.
    + destruct Hin'. apply elem_of_cons. by right.
    + apply elem_of_cons in Hin' as [->|?]; [|done].
      by rewrite lookup_insert_eq.
    + rewrite lookup_insert_ne; [done|].
      intros ->. apply Hin', elem_of_cons. by left.
Qed.

(** ** What a call of [train] that returns leaves behind *)

Lemma train_returns_inv emails labels ls s s' :
  train emails labels ls s = (Returns (), s') →
  length emails ≠ 0 ∧
  s' = estimated ls (elements (words (prepared emails labels s)))
         (prepared emails labels s) ∧
  (ls = false → words s' ≠ ∅ →
   count_label "spam" labels ≠ 0 ∧ count_label "ham" labels ≠ 0).
Proof.
  rewrite train_run. unfold train_result.
  destruct (decide (length emails = 0)); [done|].
  set (s0 := prepared emails labels s).
  destruct (ls || bool_decide (spam_email_count s0 ≠ 0 ∧ ham_email_count s0 ≠ 0))
    eqn:E.
  - intros [= <-]. split; [done|]. split; [done|]. intros -> Hw.
    rewrite orb_false_l in E. by apply bool_decide_eq_true in E.
  - destruct (elements (words s0)) as [|w ws] eqn:Ew; [|done].
    intros [= <-]. split; [done|]. split; [done|].
    intros _ Hw. destruct Hw.
    apply elements_empty_inv in Ew. by apply leibniz_equiv.
Qed.

Lemma train_returns emails labels ls s :
  length emails ≠ 0 →
  ls = true ∨ (count_label "spam" labels ≠ 0 ∧ count_label "ham" labels ≠ 0) →
  train emails labels ls s =
  (Returns (),
   estimated ls (elements (words (prepared emails labels s)))
     (prepared emails labels s)).
Proof.
  intros Hn Hc. rewrite train_run. unfold train_result.
  rewrite decide_False by done.
  destruct Hc as [->|Hc]; [done|].
  rewrite bool_decide_eq_true_2 by done. by rewrite orb_true_r.
Qed.

Lemma prepared_spam_read emails labels s word :
  dd_read 0 (spam_word_count (prepared emails labels s)) word =
  dd_read 0 (spam_word_count s) word + occurrences "spam" word emails labels.
Proof. simpl. apply tally_read. Qed.

Lemma prepared_ham_read emails labels s word :
  dd_read 0 (ham_word_count (prepared emails labels s)) word =
  dd_read 0 (ham_word_count s) word + occurrences "ham" word emails labels.
Proof. simpl. apply tally_read. Qed.

(** Every word of the vocabulary has both conditional probabilities
    stored, computed from the counts and class counts of the final state. *)
Lemma trained_probabilities emails labels ls s s' word :
  train emails labels ls s = (Returns (), s') →
  word ∈ words s' →
  p_word_given_spam s' !! word =
    Some (estimate ls (dd_read 0 (spam_word_count s') word) (spam_email_count s')) ∧
  p_word_given_ham s' !! word =
    Some (estimate ls (dd_read 0 (ham_word_count s') word) (ham_email_count s')).
Proof.
  intros (Hn & -> & _)%train_returns_inv Hw.
  rewrite estimated_words in Hw.
  rewrite estimated_p_word_given_spam, estimated_p_word_given_ham.
  rewrite !decide_True by (by apply elem_of_elements).
  by rewrite estimated_spam_read, estimated_ham_read,
    estimated_spam_email_count, estimated_ham_email_count.
Qed.

Lemma trained_counts emails labels ls s s' :
  train emails labels ls s = (Returns (), s') →
  spam_email_count s' = count_label "spam" labels ∧
  ham_email_count s' = count_label "ham" labels ∧
  total_emails s' = length emails ∧
  p_spam s' = quotient (count_label "spam" labels) (length emails) ∧
  p_ham s' = quotient (count_label "ham" labels) (length emails).
Proof.
  intros (Hn & -> & _)%train_returns_inv.
  by rewrite estimated_spam_email_count, estimated_ham_email_count,
    estimated_total_emails, estimated_p_spam, estimated_p_ham.
Qed.

Lemma trained_reads emails labels ls s s' word :
  train emails labels ls s = (Returns (), s') →
  dd_read 0 (spam_word_count s') word =
    dd_read 0 (spam_word_count s) word + occurrences "spam" word emails labels ∧
  dd_read 0 (ham_word_count s') word =
    dd_read 0 (ham_word_count s) word + occurrences "ham" word emails labels.
Proof.
  intros (Hn & -> & _)%train_returns_inv.
  by rewrite estimated_spam_read, estimated_ham_read,
    prepared_spam_read, prepared_ham_read.
Qed.

(** ** Counting labels and tokens *)

Lemma count_label_cons l x labels :
  count_label l (x :: labels) =
  (if decide (x = l) then 1 else 0) + count_label l labels.
Proof.
  unfold count_label. rewrite filter_cons. by destruct (decide (x = l)).
Qed.

Lemma count_label_length l labels :
  count_label l labels = length (filter (λ label, label = l) labels).
Proof.
  induction labels as [|x labels IH]; [done|].
  rewrite count_label_cons, filter_cons, IH.
  by destruct (decide (x = l)).
Qed.

Lemma count_label_partition labels :
  Forall (λ label, label = "spam" ∨ label = "ham") labels →
  count_label "spam" labels + count_label "ham" labels = length labels.
Proof.
  induction 1 as [|x labels Hx _ IH]; [done|].
  rewrite !count_label_cons. simpl length.
  destruct Hx as [-> | ->];
    repeat (destruct (decide _) as [?|?]; try done); lia.
Qed.

Lemma count_label_elem_of l labels : l ∈ labels → count_label l labels ≠ 0.
Proof.
  induction 1 as [|x y labels Hin IH]; rewrite count_label_cons.
  - rewrite decide_True by done. lia.
  - lia.
Qed.

Lemma occurrences_cons l word email label emails labels :
  occurrences l word (email :: emails) (label :: labels) =
  (if decide (label = l) then occurrences_in word email else 0)
  + occurrences l word emails labels.
Proof. done. Qed.

Lemma occurrences_in_absent word email :
  word ∉ email → occurrences_in word email = 0.
Proof.
  induction email as [|x email IH]; intros Hw; [done|].
  rewrite occurrences_in_cons, IH.
  - rewrite decide_False; [done|]. intros ->. apply Hw, elem_of_cons. by left.
  - intros ?. apply Hw, elem_of_cons. by right.
Qed.

Lemma occurrences_in_NoDup word email :
  NoDup email → occurrences_in word email ≤ 1.
Proof.
  induction 1 as [|x email Hx _ IH]; [unfold occurrences_in; simpl; lia|].
  rewrite occurrences_in_cons.
  destruct (decide (x = word)) as [->|]; [|lia].
  rewrite occurrences_in_absent by done. lia.
Qed.

(** When no email repeats a token, a word is counted at most once per
    email of the class. *)
Lemma occurrences_le_count l word emails labels :
  Forall NoDup emails →
  occurrences l word emails labels ≤ count_label l labels.
Proof.
  intros Hnd. revert labels.
  induction Hnd as [|email emails Hemail _ IH]; intros labels.
  { unfold occurrences. simpl. lia. }
  destruct labels as [|label labels].
  { unfold occurrences. simpl. lia. }
  rewrite occurrences_cons, count_label_cons.
  specialize (IH labels). pose proof (occurrences_in_NoDup word email Hemail).
  destruct (decide (label = l)); lia.
Qed.

(** The counters and priors are assigned before anything can fail on a
    non-empty batch, and nothing later assigns them. *)
Lemma train_scalars emails labels ls s :
  length emails ≠ 0 →
  let s' := (train emails labels ls s).2 in
  spam_email_count s' = count_label "spam" labels ∧
  ham_email_count s' = count_label "ham" labels ∧
  total_emails s' = length emails ∧
  p_spam s' = quotient (count_label "spam" labels) (length emails) ∧
  p_ham s' = quotient (count_label "ham" labels) (length emails).
Proof.
  intros Hn. rewrite train_run. unfold train_result.
  rewrite decide_False by done.
  set (s0 := prepared emails labels s).
  destruct (ls || bool_decide (spam_email_count s0 ≠ 0 ∧ ham_email_count s0 ≠ 0)).
  - cbn [snd]. by rewrite estimated_spam_email_count, estimated_ham_email_count,
      estimated_total_emails, estimated_p_spam, estimated_p_ham.
  - destruct (elements (words s0)) as [|w ws]; [done|].
    cbn [snd]. unfold interrupted_word.
    by destruct (decide (spam_email_count s0 = 0)).
Qed.

(** ** Counters and priors *)

(** C5: after [train] on a non-empty batch of equally many emails and
    labels, every label being "spam" or "ham", the two class counters hold
    the numbers of "spam" and of "ham" labels, they add up to
    [total_emails], which is the batch size, the priors are the class
    counts divided by the batch size, and the priors add up to 1.  This
    holds for the state [train] leaves behind whether it returns or stops
    in its last loop. *)
Theorem train_counts_and_priors s emails labels ls :
  length emails = length labels →
  0 < length emails →
  Forall (λ label, label = "spam" ∨ label = "ham") labels →
  let s' := (train emails labels ls s).2 in
  spam_email_count s' = length (filter (λ label, label = "spam") labels) ∧
  ham_email_count s' = length (filter (λ label, label = "ham") labels) ∧
  spam_email_count s' + ham_email_count s' = total_emails s' ∧
  total_emails s' = length emails ∧
  p_spam s' = quotient (spam_email_count s') (length emails) ∧
  p_ham s' = quotient (ham_email_count s') (length emails) ∧
  (p_spam s' + p_ham s')%Qc = 1%Qc.
Proof.
  intros Hlen Hpos Hlabels s'.
  assert (length emails ≠ 0) as Hn by lia.
  destruct (train_scalars emails labels ls s Hn) as (Hs & Hh & Ht & Hps & Hph).
  fold s' in Hs, Hh, Ht, Hps, Hph.
  pose proof (count_label_partition labels Hlabels) as Hsum.
  rewrite Hs, Hh, Ht, Hps, Hph, <- !count_label_length.
  repeat split; try done; try lia.
  rewrite quotient_add, Hsum, <- Hlen. by apply quotient_diag.
Qed.

Lemma train_counts_and_priors_witness :
  let emails := [["buy"; "now"]; ["hello"; "friend"]] in
  let labels := ["spam"; "ham"] in
  let s' := (train emails labels false init).2 in
  spam_email_count s' + ham_email_count s' = total_emails s' ∧
  (p_spam s' + p_ham s')%Qc = 1%Qc.
Proof.
  intros emails labels.
  destruct (train_counts_and_priors init emails labels false)
    as (_ & _ & H1 & _ & _ & _ & H2).
  - reflexivity.
  - simpl. lia.
  - constructor; [by left|]. constructor; [by right|]. constructor.
  - split; assumption.
Defined.

(** ** Conditional probabilities *)

(** C6 as the code has it: after a [train] with Laplace smoothing that
    returns, every word of the vocabulary has
    [p_word_given_spam[word] = (spam_word_count[word] + 1) /
    (spam_email_count + 2)], likewise for ham, and both are strictly
    positive.  They are below 1 when the instance was fresh and no email
    of the batch repeats a token. *)
Theorem smoothed_probabilities s emails labels s' :
  train emails labels true s = (Returns (), s') →
  ∀ word, word ∈ words s' →
    p_word_given_spam s' !! word =
      Some (quotient (dd_read 0 (spam_word_count s') word + 1)
                     (spam_email_count s' + 2)) ∧
    p_word_given_ham s' !! word =
      Some (quotient (dd_read 0 (ham_word_count s') word + 1)
                     (ham_email_count s' + 2)) ∧
    (0 < pw_spam s' word)%Qc ∧ (0 < pw_ham s' word)%Qc ∧
    (s = init → Forall NoDup emails →
     (pw_spam s' word < 1)%Qc ∧ (pw_ham s' word < 1)%Qc).
Proof.
  intros Htrain word Hword.
  destruct (trained_probabilities _ _ _ _ _ word Htrain Hword) as [Hs Hh].
  simpl in Hs, Hh.
  assert (pw_spam s' word =
          quotient (dd_read 0 (spam_word_count s') word + 1)
                   (spam_email_count s' + 2)) as Ps
    by (unfold pw_spam; unfold dd_read at 1; by rewrite Hs).
  assert (pw_ham s' word =
          quotient (dd_read 0 (ham_word_count s') word + 1)
                   (ham_email_count s' + 2)) as Ph
    by (unfold pw_ham; unfold dd_read at 1; by rewrite Hh).
  rewrite Ps, Ph.
  split; [done|]. split; [done|].
  split; [apply quotient_pos; lia|]. split; [apply quotient_pos; lia|].
  intros -> Hnd.
  destruct (trained_reads _ _ _ _ _ word Htrain) as [Rs Rh].
  destruct (trained_counts _ _ _ _ _ Htrain) as (Cs & Ch & _).
  pose proof (occurrences_le_count "spam" word emails labels Hnd).
  pose proof (occurrences_le_count "ham" word emails labels Hnd).
  rewrite Rs, Rh, Cs, Ch.
  change (dd_read 0 (spam_word_count init) word) with 0.
  change (dd_read 0 (ham_word_count init) word) with 0.
  split; apply quotient_lt_1; lia.
Qed.

Lemma smoothed_probabilities_witness :
  let emails := [["buy"; "now"]; ["hello"; "friend"]] in
  let labels := ["spam"; "ham"] in
  let s' := (train emails labels true init).2 in
  (0 < pw_ham s' "buy")%Qc ∧ (pw_ham s' "buy" < 1)%Qc.
Proof.
  intros emails labels s'.
  assert (train emails labels true init = (Returns (), s')) as Ht
    by (vm_compute; reflexivity).
  assert ("buy" ∈ words s') as Hw by (vm_compute; reflexivity).
  destruct (smoothed_probabilities init emails labels s' Ht "buy" Hw)
    as (_ & _ & _ & H1 & H2).
  split; [exact H1|]. apply H2; [reflexivity|].
  apply (bool_decide_unpack _). vm_compute. reflexivity.
Defined.

(** C6 as stated fails: the counts are of token occurrences, so an email
    that repeats a token pushes a smoothed probability to 1 and above. *)
Lemma smoothed_probability_above_one :
  let emails := [["a"; "a"; "a"]] in
  let labels := ["spam"] in
  let r := train emails labels true init in
  Forall (λ label, label = "spam" ∨ label = "ham") labels ∧
  r.1 = Returns () ∧ "a" ∈ words r.2 ∧
  p_word_given_spam r.2 !! "a" = Some (quotient 4 3) ∧
  (1 < pw_spam r.2 "a")%Qc.
Proof.
  split; [constructor; [by left|constructor]|].
  split; [by vm_compute|].
  split; [by vm_compute|].
  split; by vm_compute.
Qed.

(** ** A call of [train] that raises *)

Lemma interrupted_word_frame s word :
  total_emails (interrupted_word s word) = total_emails s ∧
  spam_email_count (interrupted_word s word) = spam_email_count s ∧
  ham_email_count (interrupted_word s word) = ham_email_count s ∧
  p_spam (interrupted_word s word) = p_spam s ∧
  p_ham (interrupted_word s word) = p_ham s ∧
  p_word_given_ham (interrupted_word s word) = p_word_given_ham s.
Proof.
  unfold interrupted_word.
  destruct (decide (spam_email_count s = 0)); repeat split; reflexivity.
Qed.

Lemma prepared_frame emails labels s :
  total_emails (prepared emails labels s) = length emails ∧
  spam_email_count (prepared emails labels s) = count_label "spam" labels ∧
  ham_email_count (prepared emails labels s) = count_label "ham" labels ∧
  p_spam (prepared emails labels s) =
    quotient (count_label "spam" labels) (length emails) ∧
  p_ham (prepared emails labels s) =
    quotient (count_label "ham" labels) (length emails) ∧
  p_word_given_ham (prepared emails labels s) = p_word_given_ham s.
Proof. repeat split; reflexivity. Qed.

(** C4 as the code has it: [train] is not atomic.  When it raises, the
    exception is [ZeroDivisionError], the three counters already hold the
    values of the new batch, and [p_word_given_ham] is as it was.  If
    [emails] is empty every other attribute is as it was too; otherwise
    smoothing is off, a class has no email, and the priors have been
    assigned as well. *)
Theorem failed_train_state s emails labels ls e s' :
  train emails labels ls s = (Raises e, s') →
  e = ZeroDivisionError ∧
  total_emails s' = length emails ∧
  spam_email_count s' = length (filter (λ label, label = "spam") labels) ∧
  ham_email_count s' = length (filter (λ label, label = "ham") labels) ∧
  p_word_given_ham s' = p_word_given_ham s ∧
  (length emails = 0 →
   spam_word_count s' = spam_word_count s ∧
   ham_word_count s' = ham_word_count s ∧
   p_spam s' = p_spam s ∧ p_ham s' = p_ham s ∧
   p_word_given_spam s' = p_word_given_spam s ∧
   words s' = words s) ∧
  (length emails ≠ 0 →
   ls = false ∧ (spam_email_count s' = 0 ∨ ham_email_count s' = 0) ∧
   p_spam s' = quotient (spam_email_count s') (length emails) ∧
   p_ham s' = quotient (ham_email_count s') (length emails)).
Proof.
  rewrite train_run. unfold train_result. rewrite <- !count_label_length.
  destruct e.
  destruct (decide (length emails = 0)) as [Hn|Hn].
  { intros [= <-]. split; [reflexivity|]. repeat (split; [reflexivity|]).
    split; [intros _; repeat split; reflexivity|]. intros Hn'. by destruct Hn'. }
  destruct (prepared_frame emails labels s) as (Pt & Ps & Ph & Pps & Pph & Pw).
  set (s0 := prepared emails labels s) in *. clearbody s0.
  destruct ls; [intros [=]|]. rewrite orb_false_l.
  case_bool_decide as Hc; [intros [=]|].
  destruct (elements (words s0)) as [|w ws]; [intros [=]|].
  intros [= <-].
  destruct (interrupted_word_frame s0 w) as (It & Is & Ih & Ips & Iph & Iw).
  rewrite It, Is, Ih, Ips, Iph, Iw, Pt, Ps, Ph, Pps, Pph, Pw.
  split; [reflexivity|]. repeat (split; [reflexivity|]).
  split; [intros Hn'; by destruct Hn|]. intros _.
  split; [reflexivity|]. split; [|split; reflexivity].
  rewrite <- Ps, <- Ph.
  destruct (decide (spam_email_count s0 = 0)); [by left|].
  destruct (decide (ham_email_count s0 = 0)); [by right|]. by destruct Hc.
Qed.

Lemma failed_train_state_witness :
  let r := train [["a"]] ["ham"] false init in
  r.1 = Raises ZeroDivisionError ∧ total_emails r.2 = 1 ∧
  p_word_given_ham r.2 = p_word_given_ham init.
Proof.
  intros r.
  destruct (failed_train_state init [["a"]] ["ham"] false ZeroDivisionError r.2)
    as (_ & Ht & _ & _ & Hp & _).
  - vm_compute. reflexivity.
  - split; [vm_compute; reflexivity|]. split; [exact Ht | exact Hp].
Defined.

(** C4 as stated fails: a call that raises has already written to the
    instance. *)
Lemma failed_train_changes_state :
  let r := train [["a"]] ["ham"] false init in
  r.1 = Raises ZeroDivisionError ∧
  total_emails init = 0 ∧ total_emails r.2 = 1 ∧
  ham_email_count init = 0 ∧ ham_email_count r.2 = 1 ∧
  ham_word_count init !! "a" = None ∧ ham_word_count r.2 !! "a" = Some 1 ∧
  r.2 ≠ init.
Proof.
  repeat (split; [by vm_compute|]).
  intros H. apply (f_equal total_emails) in H. vm_compute in H. discriminate H.
Qed.

(** ** Training an instance again *)

(** C1 evaluated on an instance that is trained twice: the second call
    assigns the counters and the priors from the second batch, but adds
    the word counts of the second batch to those of the first, so that the
    vocabulary keeps the words of the first batch and "x", seen in one
    ham email of each batch, gets the conditional probability 2/1.  A
    fresh instance trained on the second batch holds 1/1. *)
Theorem retrain_keeps_old_word_counts :
  let first := (train [["a"]; ["x"]] ["spam"; "ham"] false init).2 in
  let again := train [["b"]; ["x"]] ["spam"; "ham"] false first in
  let fresh := train [["b"]; ["x"]] ["spam"; "ham"] false init in
  again.1 = Returns () ∧ fresh.1 = Returns () ∧
  ham_email_count again.2 = 1 ∧ ham_email_count fresh.2 = 1 ∧
  ham_word_count again.2 !! "x" = Some 2 ∧
  ham_word_count fresh.2 !! "x" = Some 1 ∧
  p_word_given_ham again.2 !! "x" = Some (quotient 2 1) ∧
  p_word_given_ham fresh.2 !! "x" = Some (quotient 1 1) ∧
  spam_word_count again.2 !! "a" = Some 1 ∧
  spam_word_count fresh.2 !! "a" = None ∧
  elements (words again.2) = ["a"; "b"; "x"] ∧
  elements (words fresh.2) = ["b"; "x"] ∧
  again.2 ≠ fresh.2.
Proof.
  repeat (split; [by vm_compute|]).
  intros H. apply (f_equal (λ s, ham_word_count s !! "x")) in H.
  vm_compute in H. discriminate H.
Qed.

(** C7 evaluated on an instance that is trained twice without smoothing:
    the formula [spam_word_count[word] / spam_email_count] holds, but the
    word counts of the first call are still in the dictionaries (the
    missed reset of C1), so a word that no spam email of the batch
    contains does not get probability 0.  After
    [train([['a'],['x']], ['spam','ham'])] and then
    [train([['b'],['x']], ['spam','ham'])], "a" is in the vocabulary, no
    email of the second batch contains it, and [p_word_given_spam["a"]] is
    1/1.  A fresh instance trained on the second batch does not hold "a"
    at all. *)
Theorem retrain_keeps_absent_word_probability :
  let first := (train [["a"]; ["x"]] ["spam"; "ham"] false init).2 in
  let emails := [["b"]; ["x"]] in
  let labels := ["spam"; "ham"] in
  let again := train emails labels false first in
  let fresh := train emails labels false init in
  again.1 = Returns () ∧ fresh.1 = Returns () ∧
  "spam" ∈ labels ∧ "ham" ∈ labels ∧
  "a" ∈ words again.2 ∧
  Forall (λ email, "a" ∉ email) emails ∧
  occurrences "spam" "a" emails labels = 0 ∧
  spam_word_count again.2 !! "a" = Some 1 ∧
  spam_email_count again.2 = 1 ∧
  p_word_given_spam again.2 !! "a" = Some (quotient 1 1) ∧
  p_word_given_spam again.2 !! "a" ≠ Some 0%Qc ∧
  "a" ∉ words fresh.2.
Proof.
  intros first emails labels again fresh.
  split; [vm_compute; reflexivity|].
  split; [vm_compute; reflexivity|].
  split; [apply elem_of_cons; by left|].
  split; [apply elem_of_cons; right; apply elem_of_cons; by left|].
  split; [vm_compute; reflexivity|].
  split.
  { constructor; [|constructor; [|constructor]].
    - intros [[=]|H%not_elem_of_nil]%elem_of_cons. exact H.
    - intros [[=]|H%not_elem_of_nil]%elem_of_cons. exact H. }
  split; [vm_compute; reflexivity|].
  split; [vm_compute; reflexivity|].
  split; [vm_compute; reflexivity|].
  assert (p_word_given_spam again.2 !! "a" = Some (quotient 1 1)) as E
    by (vm_compute; reflexivity).
  split; [exact E|].
  split.
  - rewrite E. intros H.
    apply (f_equal (λ o : option Qc,
             match o with Some q => Qnum q | None => 0%Z end)) in H.
    vm_compute in H. discriminate H.
  - apply (bool_decide_unpack _). vm_compute. reflexivity.
Qed.

(** ** [predict] *)

Lemma same_reads_refl s : same_reads s s.
Proof. by repeat split. Qed.

Section ScoringProperties.
Context {num : Type}.
Variable load : Qc → num.
Variable combine : num → num → num.
Variable gt : num → num → bool.

Lemma score_word_run s s1 scores word :
  same_reads s s1 →
  ∃ s2, score_word load combine scores word s1 =
          (Returns (scores_after_word load combine s scores word), s2) ∧
        same_reads s s2.
Proof.
  intros (Hw & Hps & Hph & Hs & Hh).
  unfold score_word, scores_after_word. run_monad. rewrite Hw.
  destruct (decide (word ∈ words s)) as [Hin|Hin].
  - simpl. eexists. split.
    + rewrite <- (Hs word), <- (Hh word). reflexivity.
    + repeat split; try done; intros w; unfold pw_spam, pw_ham; simpl;
        rewrite ?dd_read_touch; [apply Hs|apply Hh].
  - eexists. split; [done|]. by repeat split.
Qed.

Lemma score_loop_run s s1 scores email :
  same_reads s s1 →
  ∃ s2, for_fold email scores (score_word load combine) s1 =
          (Returns (fold_left (scores_after_word load combine s) email scores), s2) ∧
        same_reads s s2.
Proof.
  revert s1 scores. induction email as [|word email IH]; intros s1 scores Hs1.
  - by exists s1.
  - simpl. unfold bind.
    destruct (score_word_run s s1 scores word Hs1) as (s2 & -> & Hs2).
    by apply IH.
Qed.

Lemma score_email_run s s1 email :
  same_reads s s1 →
  ∃ s2, score_email load combine email s1 =
          (Returns (email_scores load combine s email), s2) ∧
        same_reads s s2.
Proof.
  intros Hs1. unfold score_email, email_scores. run_monad.
  rewrite (proj1 (proj2 Hs1)), (proj1 (proj2 (proj2 Hs1))).
  by apply score_loop_run.
Qed.

Lemma label_email_run s s1 y_pred email :
  same_reads s s1 →
  ∃ s2, label_email load combine gt y_pred email s1 =
          (Returns (y_pred ++
             [label_of (gt (email_scores load combine s email).1
                           (email_scores load combine s email).2)]), s2) ∧
        same_reads s s2.
Proof.
  intros Hs1. unfold label_email, bind.
  destruct (score_email_run s s1 email Hs1) as (s2 & -> & Hs2).
  exists s2. split; [|done]. unfold label_of. by destruct (gt _ _).
Qed.

Lemma label_loop_run s s1 y_pred emails :
  same_reads s s1 →
  ∃ s2, for_fold emails y_pred (label_email load combine gt) s1 =
          (Returns (y_pred ++
             ((λ email, label_of (gt (email_scores load combine s email).1
                                     (email_scores load combine s email).2))
              <$> emails)), s2) ∧
        same_reads s s2.
Proof.
  revert s1 y_pred. induction emails as [|email emails IH]; intros s1 y_pred Hs1.
  - exists s1. split; [|done]. simpl. by rewrite app_nil_r.
  - simpl. unfold bind.
    destruct (label_email_run s s1 y_pred email Hs1) as (s2 & -> & Hs2).
    destruct (IH s2 (y_pred ++ [label_of (gt (email_scores load combine s email).1
                                 (email_scores load combine s email).2)]) Hs2)
      as (s3 & -> & Hs3).
    exists s3. split; [|done]. by rewrite <- app_assoc.
Qed.

Lemma predict_loop_run s emails :
  ∃ s', predict_loop load combine gt emails s =
          (Returns ((λ email, label_of (gt (email_scores load combine s email).1
                                           (email_scores load combine s email).2))
                    <$> emails), s') ∧
        same_reads s s'.
Proof. apply (label_loop_run s s [] emails), same_reads_refl. Qed.

(** The two scores are updated at the same tokens, so each is the fold
    of its own factors over the scored tokens. *)
Lemma scores_fold s tokens a b :
  fold_left (scores_after_word load combine s) tokens (a, b) =
  (fold_left combine (load <$> (pw_spam s <$> scored s tokens)) a,
   fold_left combine (load <$> (pw_ham s <$> scored s tokens)) b).
Proof.
  revert a b. induction tokens as [|word tokens IH]; intros a b; [done|].
  simpl. unfold scored. rewrite filter_cons. unfold scores_after_word at 2.
  destruct (decide (word ∈ words s)); simpl; apply IH.
Qed.

Lemma email_scores_class_score s email :
  email_scores load combine s email =
  (class_score load combine (p_spam s) (pw_spam s) (scored s email),
   class_score load combine (p_ham s) (pw_ham s) (scored s email)).
Proof. apply scores_fold. Qed.
End ScoringProperties.

Lemma label_of_cases b :
  (label_of b = "spam" ↔ b = true) ∧ (label_of b = "ham" ↔ b = false).
Proof. by destruct b. Qed.

(** C2: [predict] returns, in either mode, one label per email and each
    label is "spam" or "ham"; in direct mode the label at position [i] is
    "spam" exactly when the spam score of the [i]-th email is greater than
    its ham score, and "ham" otherwise, where the score of a class is its
    prior multiplied (in binary64, in reading order) by the conditional
    probability of every in-vocabulary token, once per occurrence. *)
Theorem predict_labels s emails prevent_underflow :
  ∃ y_pred s',
    predict emails prevent_underflow s = (Returns y_pred, s') ∧
    length y_pred = length emails ∧
    Forall (λ label, label = "spam" ∨ label = "ham") y_pred ∧
    (prevent_underflow = false →
     ∀ i email, emails !! i = Some email →
       (y_pred !! i = Some "spam" ↔
        b64_gt (direct_score_spam s email) (direct_score_ham s email) = true) ∧
       (y_pred !! i = Some "ham" ↔
        b64_gt (direct_score_spam s email) (direct_score_ham s email) = false)).
Proof.
  unfold predict. destruct prevent_underflow.
  - destruct (predict_loop_run np_log logval_add logval_gt s emails)
      as (s' & -> & _).
    eexists _, s'. split; [done|]. split; [by rewrite length_fmap|].
    split; [|done]. apply Forall_fmap, Forall_forall. intros email _. simpl.
    unfold label_of. destruct (logval_gt _ _); auto.
  - destruct (predict_loop_run to_float b64_mul b64_gt s emails)
      as (s' & -> & _).
    eexists _, s'. split; [done|]. split; [by rewrite length_fmap|].
    split.
    { apply Forall_fmap, Forall_forall. intros email _. simpl.
      unfold label_of. destruct (b64_gt _ _); auto. }
    intros _ i email Hi.
    rewrite list_lookup_fmap, Hi. cbn [fmap option_fmap option_map].
    rewrite email_scores_class_score. cbn [fst snd].
    fold (direct_score_spam s email). fold (direct_score_ham s email).
    destruct (label_of_cases (b64_gt (direct_score_spam s email)
                                     (direct_score_ham s email))) as [H1 H2].
    split; (split; [intros [= H]|intros H; f_equal]); tauto.
Qed.

Lemma predict_labels_witness :
  let s := (train [["buy"; "now"]; ["hello"; "friend"]] ["spam"; "ham"] false init).2 in
  ∃ y_pred s',
    predict [["buy"; "now"]] false s = (Returns y_pred, s') ∧
    y_pred !! 0 = Some "spam".
Proof.
  intros s.
  destruct (predict_labels s [["buy"; "now"]] false)
    as (y_pred & s' & Hrun & _ & _ & Hlabel).
  exists y_pred, s'. split; [exact Hrun|].
  apply (Hlabel eq_refl 0 ["buy"; "now"] eq_refl).
  vm_compute. reflexivity.
Defined.

(** ** Log scores *)

Lemma np_log_0 : np_log 0%Qc = NegInf.
Proof. unfold np_log. by rewrite decide_True. Qed.

Lemma np_log_pos q : (0 < q)%Qc → np_log q = Fin (ln (Q2R q)).
Proof.
  intros Hq. unfold np_log.
  rewrite decide_False by (intros ->; by apply Qclt_not_eq in Hq).
  by rewrite decide_True.
Qed.

Lemma Qc_nonneg_cases q : (0 ≤ q)%Qc → q = 0%Qc ∨ (0 < q)%Qc.
Proof.
  intros Hq. destruct (decide (q = 0%Qc)) as [|Hne]; [by left|right].
  apply Qcle_lt_or_eq in Hq as [|]; [done|by destruct Hne].
Qed.

Lemma np_log_nonneg q : (0 ≤ q)%Qc → np_log q ≠ NaN.
Proof.
  intros [->|Hq]%Qc_nonneg_cases.
  - by rewrite np_log_0.
  - by rewrite np_log_pos.
Qed.

Lemma logval_add_neg_inf_r a : a ≠ NaN → logval_add a NegInf = NegInf.
Proof. by destruct a. Qed.

Lemma logval_add_not_nan a b : a ≠ NaN → b ≠ NaN → logval_add a b ≠ NaN.
Proof. by destruct a, b. Qed.

Lemma log_fold_not_nan qs acc :
  acc ≠ NaN → Forall (λ q, 0 ≤ q)%Qc qs →
  fold_left logval_add (np_log <$> qs) acc ≠ NaN.
Proof.
  intros Hacc Hqs. revert acc Hacc.
  induction Hqs as [|q qs Hq _ IH]; intros acc Hacc; [done|].
  rewrite fmap_cons. cbn [fold_left].
  apply IH, logval_add_not_nan; [done|by apply np_log_nonneg].
Qed.

Lemma logval_add_neg_inf_l b : b ≠ NaN → logval_add NegInf b = NegInf.
Proof. by destruct b. Qed.

Lemma log_fold_from_neg_inf qs :
  Forall (λ q, 0 ≤ q)%Qc qs →
  fold_left logval_add (np_log <$> qs) NegInf = NegInf.
Proof.
  induction 1 as [|q qs Hq _ IH]; [done|].
  rewrite fmap_cons. cbn [fold_left].
  by rewrite logval_add_neg_inf_l by (by apply np_log_nonneg).
Qed.

(** A factor 0 among non-negative ones sends the log score to minus
    infinity. *)
Lemma log_fold_zero qs acc :
  acc ≠ NaN → Forall (λ q, 0 ≤ q)%Qc qs → 0%Qc ∈ qs →
  fold_left logval_add (np_log <$> qs) acc = NegInf.
Proof.
  intros Hacc Hqs. revert acc Hacc.
  induction Hqs as [|q qs Hq Hqs IH]; intros acc Hacc Hin.
  { by apply not_elem_of_nil in Hin. }
  rewrite fmap_cons. cbn [fold_left]. apply elem_of_cons in Hin as [<-|Hin].
  - rewrite np_log_0, logval_add_neg_inf_r by done.
    by apply log_fold_from_neg_inf.
  - apply IH; [|done]. apply logval_add_not_nan; [done|by apply np_log_nonneg].
Qed.

Lemma Q2R_Qcmult (a b : Qc) : Q2R (a * b)%Qc = (Q2R a * Q2R b)%R.
Proof.
  rewrite <- Q2R_mult. apply Qeq_eqR. simpl. apply Qred_correct.
Qed.

Lemma Q2R_pos (q : Qc) : (0 < q)%Qc → (0 < Q2R q)%R.
Proof.
  intros Hq. rewrite <- RMicromega.Q2R_0. by apply Qlt_Rlt.
Qed.

(** With positive factors only, the log score is the logarithm of the
    exact product. *)
Lemma log_fold_pos qs a :
  (0 < a)%Qc → Forall (λ q, 0 < q)%Qc qs →
  fold_left logval_add (np_log <$> qs) (Fin (ln (Q2R a))) =
    Fin (ln (Q2R (fold_left Qcmult qs a))) ∧
  (0 < fold_left Qcmult qs a)%Qc.
Proof.
  intros Ha Hqs. revert a Ha.
  induction Hqs as [|q qs Hq _ IH]; intros a Ha; [done|].
  rewrite fmap_cons. cbn [fold_left]. rewrite np_log_pos by done.
  cbn [logval_add].
  rewrite <- ln_mult by (by apply Q2R_pos).
  rewrite <- Q2R_Qcmult. apply IH. by apply Qcmult_pos_pos.
Qed.

(** The models [train] returns hold no negative probability. *)
Lemma trained_nonneg emails labels ls s m :
  train emails labels ls s = (Returns (), m) →
  (0 ≤ p_spam m)%Qc ∧ (0 ≤ p_ham m)%Qc ∧
  ∀ word, word ∈ words m → (0 ≤ pw_spam m word)%Qc ∧ (0 ≤ pw_ham m word)%Qc.
Proof.
  intros Htrain.
  destruct (trained_counts _ _ _ _ _ Htrain) as (_ & _ & _ & -> & ->).
  split; [apply quotient_nonneg|]. split; [apply quotient_nonneg|].
  intros word Hword.
  destruct (trained_probabilities _ _ _ _ _ word Htrain Hword) as [Hs Hh].
  unfold pw_spam, pw_ham, dd_read. rewrite Hs, Hh. simpl.
  split; destruct ls; apply quotient_nonneg.
Qed.

Lemma elem_of_scored s email word :
  word ∈ scored s email ↔ word ∈ words s ∧ word ∈ email.
Proof. unfold scored. by rewrite list_elem_of_filter. Qed.

Lemma log_score_not_nan prior pw tokens :
  (0 ≤ prior)%Qc → (∀ word, word ∈ tokens → (0 ≤ pw word)%Qc) →
  class_score np_log logval_add prior pw tokens ≠ NaN.
Proof.
  intros Hprior Hpw. unfold class_score.
  apply log_fold_not_nan; [by apply np_log_nonneg|].
  apply Forall_fmap, Forall_forall. intros word Hword. by apply Hpw.
Qed.

Lemma log_score_neg_inf prior pw tokens word :
  (0 ≤ prior)%Qc → (∀ word, word ∈ tokens → (0 ≤ pw word)%Qc) →
  word ∈ tokens → pw word = 0%Qc →
  class_score np_log logval_add prior pw tokens = NegInf.
Proof.
  intros Hprior Hpw Hword Hzero. unfold class_score.
  apply log_fold_zero.
  - by apply np_log_nonneg.
  - apply Forall_fmap, Forall_forall. intros w Hw. by apply Hpw.
  - rewrite <- Hzero. by apply list_elem_of_fmap_2.
Qed.

Lemma log_score_pos prior pw tokens :
  (0 < prior)%Qc → (∀ word, word ∈ tokens → (0 < pw word)%Qc) →
  class_score np_log logval_add prior pw tokens =
    Fin (ln (Q2R (class_score (λ q, q) Qcmult prior pw tokens))) ∧
  (0 < class_score (λ q, q) Qcmult prior pw tokens)%Qc.
Proof.
  intros Hprior Hpw. unfold class_score.
  rewrite list_fmap_id, np_log_pos by done.
  apply log_fold_pos; [done|].
  apply Forall_fmap, Forall_forall. intros word Hword. by apply Hpw.
Qed.

Lemma predict_log_run m docs :
  ∃ m', predict docs true m =
    (Returns ((λ doc, label_of (logval_gt (log_score_spam m doc)
                                          (log_score_ham m doc))) <$> docs), m').
Proof.
  destruct (predict_loop_run np_log logval_add logval_gt m docs) as (m' & H & _).
  exists m'. unfold predict. rewrite H. do 2 f_equal.
  apply list_fmap_ext. intros _ doc _.
  by rewrite email_scores_class_score.
Qed.

(** ** Log mode on a zero probability *)

(** C3 as the code has it: on a model [train] returned without smoothing,
    [predict] with [prevent_underflow=True] always returns, one label per
    document.  When an in-vocabulary word of a document has conditional
    probability 0 for spam, the spam log score is minus infinity and the
    document is labelled "ham"; when it has probability 0 for ham, the ham
    log score is minus infinity and the document is labelled "spam"
    unless the spam score is minus infinity too. *)
Theorem log_mode_zero_probability s emails labels m docs :
  train emails labels false s = (Returns (), m) →
  ∃ y_pred m',
    predict docs true m = (Returns y_pred, m') ∧
    length y_pred = length docs ∧
    ∀ i doc word,
      docs !! i = Some doc → word ∈ doc → word ∈ words m →
      (pw_spam m word = 0%Qc →
       log_score_spam m doc = NegInf ∧ y_pred !! i = Some "ham") ∧
      (pw_ham m word = 0%Qc →
       log_score_ham m doc = NegInf ∧
       (log_score_spam m doc ≠ NegInf → y_pred !! i = Some "spam")).
Proof.
  intros Htrain.
  destruct (trained_nonneg _ _ _ _ _ Htrain) as (Hs & Hh & Hpw).
  destruct (predict_log_run m docs) as (m' & Hrun).
  eexists _, m'. split; [exact Hrun|]. split; [by rewrite length_fmap|].
  intros i doc word Hi Hdoc Hword.
  assert (word ∈ scored m doc) as Hscored by (by apply elem_of_scored).
  assert (∀ w, w ∈ scored m doc → (0 ≤ pw_spam m w)%Qc) as Hps
    by (intros w [Hw _]%elem_of_scored; by apply Hpw).
  assert (∀ w, w ∈ scored m doc → (0 ≤ pw_ham m w)%Qc) as Hph
    by (intros w [Hw _]%elem_of_scored; by apply Hpw).
  rewrite list_lookup_fmap, Hi. cbn [fmap option_fmap option_map].
  split; intros Hzero.
  - assert (log_score_spam m doc = NegInf) as E
      by (by apply (log_score_neg_inf _ _ _ word)).
    rewrite E. split; [done|]. by destruct (log_score_ham m doc).
  - assert (log_score_ham m doc = NegInf) as E
      by (by apply (log_score_neg_inf _ _ _ word)).
    rewrite E. split; [done|]. intros Hfin.
    pose proof (log_score_not_nan (p_spam m) (pw_spam m) (scored m doc) Hs Hps)
      as Hnan.
    fold (log_score_spam m doc) in Hnan.
    by destruct (log_score_spam m doc).
Qed.

Lemma log_mode_zero_probability_witness :
  let emails := [["buy"; "now"]; ["hello"; "friend"]] in
  let labels := ["spam"; "ham"] in
  let m := (train emails labels false init).2 in
  ∃ y_pred m',
    predict [["hello"]] true m = (Returns y_pred, m') ∧
    y_pred !! 0 = Some "ham".
Proof.
  intros emails labels m.
  destruct (log_mode_zero_probability init emails labels m [["hello"]])
    as (y_pred & m' & Hrun & _ & Hlabel).
  - vm_compute. reflexivity.
  - exists y_pred, m'. split; [exact Hrun|].
    apply (Hlabel 0 ["hello"] "hello" eq_refl).
    + apply elem_of_cons. by left.
    + vm_compute. reflexivity.
    + apply Qc_is_canon. vm_compute. reflexivity.
Defined.

(** C3 as stated fails: on the spec's own scenario the word "buy" has
    probability 0 for ham, the ham log score of the document is minus
    infinity, and the call returns the label "spam". *)
Lemma zero_probability_completes_in_log_mode :
  let emails := [["buy"; "now"]; ["hello"; "friend"]] in
  let labels := ["spam"; "ham"] in
  let r := train emails labels false init in
  r.1 = Returns () ∧
  "buy" ∈ words r.2 ∧
  p_word_given_ham r.2 !! "buy" = Some 0%Qc ∧
  log_score_ham r.2 ["buy"] = NegInf ∧
  (predict [["buy"]] true r.2).1 = Returns ["spam"].
Proof.
  intros emails labels r.
  assert (train emails labels false init = (Returns (), r.2)) as Htrain
    by (vm_compute; reflexivity).
  assert (r.1 = Returns ()) as Hret by (vm_compute; reflexivity).
  assert ("buy" ∈ words r.2) as Hword by (vm_compute; reflexivity).
  assert (p_word_given_ham r.2 !! "buy" = Some 0%Qc) as Hzero
    by (vm_compute; reflexivity).
  assert (0 < p_spam r.2)%Qc as Hprior by (vm_compute; reflexivity).
  assert (0 < pw_spam r.2 "buy")%Qc as Hbuy by (vm_compute; reflexivity).
  clearbody r.
  assert (pw_ham r.2 "buy" = 0%Qc) as Hpw.
  { unfold pw_ham, dd_read. rewrite Hzero. reflexivity. }
  destruct (trained_nonneg _ _ _ _ _ Htrain) as (Hs & Hh & Hnn).
  assert ("buy" ∈ scored r.2 ["buy"]) as Hscored.
  { apply elem_of_scored. split; [exact Hword|]. apply elem_of_cons. by left. }
  assert (log_score_ham r.2 ["buy"] = NegInf) as Eh.
  { unfold log_score_ham.
    apply (log_score_neg_inf (p_ham r.2) (pw_ham r.2) _ "buy" Hh);
      [|exact Hscored|exact Hpw].
    intros w [Hw _]%elem_of_scored. by apply Hnn. }
  assert (∃ x, log_score_spam r.2 ["buy"] = Fin x) as [x Es].
  { eexists. unfold log_score_spam.
    apply (log_score_pos (p_spam r.2) (pw_spam r.2) _ Hprior).
    intros w [_ Hw]%elem_of_scored.
    apply elem_of_cons in Hw as [->|Hw]; [exact Hbuy|].
    apply not_elem_of_nil in Hw. destruct Hw. }
  split; [exact Hret|]. split; [exact Hword|].
  split; [exact Hzero|]. split; [exact Eh|].
  destruct (predict_log_run r.2 [["buy"]]) as (m' & ->).
  cbn [fst fmap list_fmap]. rewrite Eh, Es. reflexivity.
Qed.

(** ** [accuracy] *)

Lemma length_filter_fmap {A B} (f : A → B) (P : B → Prop)
    `{∀ y, Decision (P y)} (l : list A) :
  length (filter P (f <$> l)) = length (filter (λ x, P (f x)) l).
Proof.
  induction l as [|x l IH]; [done|].
  rewrite fmap_cons, !filter_cons.
  destruct (decide (P (f x))); simpl; by rewrite IH.
Qed.

Lemma agreements_nil_l y_pred : agreements [] y_pred = 0.
Proof. done. Qed.

Lemma agreements_nil_r y_true : agreements y_true [] = 0.
Proof. unfold agreements. simpl. by rewrite Nat.min_0_r. Qed.

Lemma agreements_cons yt yp y_true y_pred :
  agreements (yt :: y_true) (yp :: y_pred) =
  (if decide (yt = yp) then 1 else 0) + agreements y_true y_pred.
Proof.
  unfold agreements. cbn [length]. rewrite <- Nat.succ_min_distr.
  cbn [seq]. rewrite filter_cons, <- fmap_S_seq.
  assert (length (filter (λ i, (yt :: y_true) !! i = (yp :: y_pred) !! i)
                    (S <$> seq 0 (length y_true `min` length y_pred))) =
          length (filter (λ i, y_true !! i = y_pred !! i)
                    (seq 0 (length y_true `min` length y_pred)))) as Htail
    by apply length_filter_fmap.
  destruct (decide ((yt :: y_true) !! 0 = (yp :: y_pred) !! 0)) as [E|E];
    cbn [lookup list_lookup] in E.
  - injection E as ->. rewrite decide_True by done.
    cbn [length]. by rewrite Htail.
  - rewrite decide_False by (by intros ->). by rewrite Htail.
Qed.

Lemma agreements_le_l y_true y_pred : agreements y_true y_pred ≤ length y_true.
Proof.
  unfold agreements. etrans; [apply length_filter|].
  rewrite length_seq. lia.
Qed.

Lemma agreements_diag y : agreements y y = length y.
Proof.
  induction y as [|x y IH]; [done|].
  rewrite agreements_cons, IH, decide_True by done. done.
Qed.

(** Entries beyond the shorter sequence are at no common position. *)
Lemma agreements_take y_true y_pred :
  agreements y_true y_pred =
  agreements (take (length y_pred) y_true) (take (length y_true) y_pred).
Proof.
  revert y_pred. induction y_true as [|yt y_true IH]; intros [|yp y_pred];
    try done.
  cbn [length take]. by rewrite !agreements_cons, IH.
Qed.

Lemma accuracy_loop_run y_true y_pred c s :
  for_fold (zip y_true y_pred) c (λ c '(yt, yp),
    if decide (yt = yp) then ret (c + 1) else ret c) s =
  (Returns (c + agreements y_true y_pred), s).
Proof.
  revert y_pred c. induction y_true as [|yt y_true IH]; intros [|yp y_pred] c.
  - simpl. unfold ret. by rewrite agreements_nil_l, Nat.add_0_r.
  - simpl. unfold ret. by rewrite agreements_nil_l, Nat.add_0_r.
  - simpl. unfold ret. by rewrite agreements_nil_r, Nat.add_0_r.
  - cbn [zip zip_with for_fold]. unfold bind at 1.
    rewrite agreements_cons.
    destruct (decide (yt = yp)); unfold ret at 1; rewrite IH;
      do 2 f_equal; lia.
Qed.

Lemma accuracy_run y_true y_pred s :
  accuracy y_true y_pred s =
  if decide (length y_true = 0) then (Raises ZeroDivisionError, s)
  else (Returns (quotient (agreements y_true y_pred) (length y_true)), s).
Proof.
  unfold accuracy, bind. rewrite accuracy_loop_run. unfold true_div.
  by destruct (decide (length y_true = 0)).
Qed.

Lemma quotient_le_1 a b : a ≤ b → b ≠ 0 → (quotient a b ≤ 1)%Qc.
Proof.
  intros Hab Hb. destruct (decide (a = b)) as [->|Hne].
  - rewrite quotient_diag by done. apply Qcle_refl.
  - apply Qclt_le_weak, quotient_lt_1. lia.
Qed.

(** C9: on two label sequences of equal non-zero length, [accuracy]
    returns the number of positions at which they agree divided by the
    length; the value is between 0 and 1, and it is 1 when the sequences
    are identical.  On two empty sequences [accuracy] raises
    [ZeroDivisionError]. *)
Theorem accuracy_equal_length s y_true y_pred :
  length y_true = length y_pred →
  (y_true ≠ [] →
   ∃ a, accuracy y_true y_pred s = (Returns a, s) ∧
        a = quotient (agreements y_true y_pred) (length y_true) ∧
        (0 ≤ a)%Qc ∧ (a ≤ 1)%Qc ∧
        (y_true = y_pred → a = 1%Qc)) ∧
  (y_true = [] → accuracy y_true y_pred s = (Raises ZeroDivisionError, s)).
Proof.
  intros Hlen. rewrite accuracy_run. split.
  - intros Hne. assert (length y_true ≠ 0) as Hn by (by destruct y_true).
    rewrite decide_False by done. eexists. split; [done|]. split; [done|].
    split; [apply quotient_nonneg|]. split.
    + apply quotient_le_1; [apply agreements_le_l|done].
    + intros <-. rewrite agreements_diag. by apply quotient_diag.
  - by intros ->.
Qed.

Lemma accuracy_equal_length_witness :
  ∃ a, accuracy ["spam"; "ham"; "ham"] ["spam"; "spam"; "ham"] init =
         (Returns a, init) ∧
       a = quotient 2 3.
Proof.
  destruct (accuracy_equal_length init ["spam"; "ham"; "ham"]
              ["spam"; "spam"; "ham"]) as [H _].
  - reflexivity.
  - destruct H as (a & Hrun & Ha & _).
    + discriminate.
    + exists a. split; [exact Hrun|]. rewrite Ha. apply Qc_is_canon.
      vm_compute. reflexivity.
Defined.

(** C10: [accuracy] takes sequences of any two lengths.  It raises
    [ZeroDivisionError] exactly when [y_true] is empty, whatever
    [y_pred] is, and otherwise returns the number of agreeing positions
    among the first [min(len(y_true), len(y_pred))] divided by
    [len(y_true)]: entries of [y_true] beyond [y_pred] add to the divisor
    only, and entries of [y_pred] beyond [y_true] change nothing. *)
Theorem accuracy_unequal_length s y_true y_pred :
  accuracy y_true y_pred s =
    (if decide (y_true = []) then Raises ZeroDivisionError
     else Returns (quotient
            (agreements (take (length y_pred) y_true) (take (length y_true) y_pred))
            (length y_true)), s) ∧
  ((accuracy y_true y_pred s).1 = Raises ZeroDivisionError ↔ y_true = []) ∧
  (∀ extra, length y_true = length y_pred → y_true ≠ [] →
     accuracy (y_true ++ extra) y_pred s =
       (Returns (quotient (agreements y_true y_pred)
                          (length y_true + length extra)), s)) ∧
  (∀ extra, length y_true = length y_pred →
     accuracy y_true (y_pred ++ extra) s = accuracy y_true y_pred s).
Proof.
  rewrite !accuracy_run, <- agreements_take.
  split; [|split; [|split]].
  - destruct y_true; [done|]. by rewrite decide_False.
  - destruct y_true; [done|]. rewrite decide_False by done. simpl.
    split; intros H; discriminate H.
  - intros extra Hlen Hne. rewrite accuracy_run, length_app.
    assert (length y_true ≠ 0) as Hn by (by destruct y_true).
    rewrite decide_False by lia. do 2 f_equal. f_equal.
    rewrite (agreements_take (y_true ++ extra)), <- Hlen, take_app_length.
    rewrite length_app, take_ge by lia. done.
  - intros extra Hlen. rewrite accuracy_run.
    destruct (decide (length y_true = 0)); [done|]. do 2 f_equal. f_equal.
    rewrite (agreements_take y_true (y_pred ++ extra)), Hlen, take_app_length.
    rewrite length_app, take_ge by lia. done.
Qed.

Lemma accuracy_unequal_length_witness :
  (accuracy [] ["spam"] init).1 = Raises ZeroDivisionError ∧
  accuracy ["spam"; "ham"; "ham"] ["spam"] init =
    (Returns (quotient 1 3), init).
Proof.
  destruct (accuracy_unequal_length init [] ["spam"]) as (_ & [_ Hraise] & _).
  destruct (accuracy_unequal_length init ["spam"] ["spam"]) as (_ & _ & Hextra & _).
  split; [exact (Hraise eq_refl)|].
  exact (Hextra ["ham"; "ham"] eq_refl ltac:(discriminate)).
Defined.

(** * Further properties of the code *)

(** ** The vocabulary *)

Lemma elem_of_dom_dd_touch {V} (dflt : V) (d : gmap string V) k word :
  word ∈ dom (dd_touch dflt d k) ↔ word = k ∨ word ∈ dom d.
Proof.
  unfold dd_touch. destruct (d !! k) eqn:E.
  - split; [by right|]. intros [->|H]; [|exact H]. by apply elem_of_dom_2 in E.
  - rewrite dom_insert_L, elem_of_union, elem_of_singleton. reflexivity.
Qed.

Lemma occurrences_in_pos word email : occurrences_in word email ≠ 0 ↔ word ∈ email.
Proof.
  induction email as [|x email IH].
  - split; [intros H; by destruct H|]. intros H. by apply not_elem_of_nil in H.
  - rewrite occurrences_in_cons, elem_of_cons.
    destruct (decide (x = word)) as [->|Hne].
    + split; [by left|]. intros _. lia.
    + rewrite Nat.add_0_l, IH. split; [by right|].
      intros [->|H]; [by destruct Hne|exact H].
Qed.

Lemma elem_of_dom_add_tokens email (d : gmap string nat) word :
  word ∈ dom (add_tokens email d) ↔ word ∈ dom d ∨ word ∈ email.
Proof.
  revert d. induction email as [|x email IH]; intros d.
  - split; [by left|]. intros [H|H]; [exact H|]. by apply not_elem_of_nil in H.
  - change (add_tokens (x :: email) d)
      with (add_tokens email (<[x := dd_read 0 d x + 1]> d)).
    rewrite IH, dom_insert_L, elem_of_union, elem_of_singleton, elem_of_cons.
    tauto.
Qed.

Lemma elem_of_dom_tally l emails labels (d : gmap string nat) word :
  word ∈ dom (tally l emails labels d) ↔
  word ∈ dom d ∨ occurrences l word emails labels ≠ 0.
Proof.
  unfold tally, occurrences.
  generalize (zip emails labels) as ps. intros ps.
  revert d. induction ps as [|[email label] ps IH]; intros d.
  - simpl. split; [by left|]. intros [H|H]; [exact H|]. by destruct H.
  - cbn [fold_left]. rewrite IH, fmap_cons. cbn [sum_list sum_list_with].
    unfold Datatypes.id. destruct (decide (label = l)) as [->|Hne].
    + rewrite elem_of_dom_add_tokens, <- occurrences_in_pos.
      set (a := occurrences_in word email).
      match goal with |- context [a + ?x] => set (b := x) end.
      clearbody a b.
      split; [intros [[H|H]|H]|intros [H|H]].
      * by left.
      * right. lia.
      * right. lia.
      * left. by left.
      * destruct (decide (a = 0)); [right; lia|left; by right].
    + rewrite Nat.add_0_l. reflexivity.
Qed.

(** A word is counted for a class exactly when it occurs in an email that
    [zip] pairs with the label of the class. *)
Lemma occurrences_pos l word emails labels :
  occurrences l word emails labels ≠ 0 ↔
  ∃ i email, emails !! i = Some email ∧ labels !! i = Some l ∧ word ∈ email.
Proof.
  revert labels. induction emails as [|email emails IH]; intros labels.
  - split; [intros H; by destruct H|]. intros (i & e & H & _). by destruct i.
  - destruct labels as [|label labels].
    + split; [intros H; by destruct H|]. intros (i & e & _ & H & _). by destruct i.
    + rewrite occurrences_cons. split.
      * intros H. destruct (decide (label = l)) as [->|Hne].
        -- destruct (decide (occurrences_in word email = 0)) as [E|E].
           ++ rewrite E, Nat.add_0_l in H. apply IH in H as (i & e & ? & ? & ?).
              by exists (S i), e.
           ++ apply occurrences_in_pos in E. by exists 0, email.
        -- rewrite Nat.add_0_l in H. apply IH in H as (i & e & ? & ? & ?).
           by exists (S i), e.
      * intros ([|i] & e & He & Hl & Hw).
        -- injection He as ->. injection Hl as ->.
           rewrite decide_True by reflexivity.
           apply occurrences_in_pos in Hw. lia.
        -- assert (occurrences l word emails labels ≠ 0) as H
             by (apply IH; by exists i, e).
           lia.
Qed.

Lemma interrupted_word_words s word :
  words (interrupted_word s word) = words s.
Proof.
  unfold interrupted_word. by destruct (decide (spam_email_count s = 0)).
Qed.

(** Whenever [emails] is not empty line 88 is reached, and the vocabulary
    it assigns is the one the instance is left with. *)
Lemma train_words emails labels ls s :
  length emails ≠ 0 →
  words (train emails labels ls s).2 =
  dom (tally "spam" emails labels (spam_word_count s))
  ∪ dom (tally "ham" emails labels (ham_word_count s)).
Proof.
  intros Hn. rewrite train_run. unfold train_result.
  rewrite decide_False by exact Hn.
  change (dom (tally "spam" emails labels (spam_word_count s))
          ∪ dom (tally "ham" emails labels (ham_word_count s)))
    with (words (prepared emails labels s)).
  generalize (prepared emails labels s) as s0. intros s0.
  destruct (ls || bool_decide (spam_email_count s0 ≠ 0 ∧ ham_email_count s0 ≠ 0)).
  - apply estimated_words.
  - destruct (elements (words s0)) as [|w ws]; [reflexivity|].
    apply interrupted_word_words.
Qed.

(** X1: after [train] on a non-empty batch (whether it returns or stops in
    its last loop) the vocabulary consists of the keys the two count
    dictionaries had before the call and of the tokens of the emails that
    [zip(emails, labels)] pairs with a label "spam" or "ham"; emails with
    any other label, and emails beyond the last label, add no word. *)
Theorem vocabulary_after_train s emails labels ls :
  length emails ≠ 0 →
  ∀ word,
    word ∈ words (train emails labels ls s).2 ↔
    word ∈ dom (spam_word_count s) ∨ word ∈ dom (ham_word_count s) ∨
    ∃ i email label,
      emails !! i = Some email ∧ labels !! i = Some label ∧
      (label = "spam" ∨ label = "ham") ∧ word ∈ email.
Proof.
  intros Hn word. rewrite train_words by exact Hn.
  rewrite elem_of_union, !elem_of_dom_tally, !occurrences_pos.
  split.
  - intros [[H|(i & e & ? & ? & ?)]|[H|(i & e & ? & ? & ?)]].
    + by left.
    + right. right. exists i, e, "spam". auto.
    + right. by left.
    + right. right. exists i, e, "ham". auto.
  - intros [H|[H|(i & e & l & ? & ? & [->| ->] & ?)]].
    + left. by left.
    + right. by left.
    + left. right. by exists i, e.
    + right. right. by exists i, e.
Qed.

Lemma vocabulary_after_train_witness :
  "hello" ∈ words (train [["buy"]; ["hello"]; ["bye"]] ["spam"; "ham"; "other"]
                     true init).2 ∧
  "bye" ∉ words (train [["buy"]; ["hello"]; ["bye"]] ["spam"; "ham"; "other"]
                   true init).2.
Proof.
  pose proof (vocabulary_after_train init [["buy"]; ["hello"]; ["bye"]]
                ["spam"; "ham"; "other"] true ltac:(discriminate)) as H.
  split.
  - apply H. right. right. exists 1, ["hello"], "ham".
    repeat split; [by right|]. apply elem_of_cons. by left.
  - intros Hin. apply H in Hin as [Hin|[Hin|Hin]].
    + vm_compute in Hin. discriminate Hin.
    + vm_compute in Hin. discriminate Hin.
    + destruct Hin as ([|[|[|i]]] & e & l & He & Hl & Hlabel & Hw);
        try discriminate He; injection He as <-; injection Hl as <-.
      * apply elem_of_cons in Hw as [Hw|Hw]; [discriminate Hw|].
        by apply not_elem_of_nil in Hw.
      * apply elem_of_cons in Hw as [Hw|Hw]; [discriminate Hw|].
        by apply not_elem_of_nil in Hw.
      * destruct Hlabel as [Hlabel|Hlabel]; discriminate Hlabel.
Defined.

(** ** Word counts *)

Lemma interrupted_word_reads s word w :
  dd_read 0 (spam_word_count (interrupted_word s word)) w =
    dd_read 0 (spam_word_count s) w ∧
  dd_read 0 (ham_word_count (interrupted_word s word)) w =
    dd_read 0 (ham_word_count s) w.
Proof.
  unfold interrupted_word.
  destruct (decide (spam_email_count s = 0)); cbn; by rewrite ?dd_read_touch.
Qed.

Lemma train_reads emails labels ls s word :
  length emails ≠ 0 →
  dd_read 0 (spam_word_count (train emails labels ls s).2) word =
    dd_read 0 (spam_word_count s) word + occurrences "spam" word emails labels ∧
  dd_read 0 (ham_word_count (train emails labels ls s).2) word =
    dd_read 0 (ham_word_count s) word + occurrences "ham" word emails labels.
Proof.
  intros Hn. rewrite train_run. unfold train_result.
  rewrite decide_False by exact Hn.
  rewrite <- prepared_spam_read, <- prepared_ham_read.
  generalize (prepared emails labels s) as s0. intros s0.
  destruct (ls || bool_decide (spam_email_count s0 ≠ 0 ∧ ham_email_count s0 ≠ 0)).
  - cbn [snd]. by rewrite estimated_spam_read, estimated_ham_read.
  - destruct (elements (words s0)) as [|w ws]; [by split|].
    apply interrupted_word_reads.
Qed.

(** X2: [train] adds to the word counts the instance already holds.  After
    a call on a non-empty batch, [spam_word_count[word]] is its value
    before the call plus the number of times [word] occurs in the emails
    paired with the label "spam", repeated tokens counted each time, and
    likewise for ham; on a fresh instance the counts are those numbers. *)
Theorem word_counts_after_train s emails labels ls word :
  length emails ≠ 0 →
  dd_read 0 (spam_word_count (train emails labels ls s).2) word =
    dd_read 0 (spam_word_count s) word + occurrences "spam" word emails labels ∧
  dd_read 0 (ham_word_count (train emails labels ls s).2) word =
    dd_read 0 (ham_word_count s) word + occurrences "ham" word emails labels ∧
  (s = init →
   dd_read 0 (spam_word_count (train emails labels ls s).2) word =
     occurrences "spam" word emails labels ∧
   dd_read 0 (ham_word_count (train emails labels ls s).2) word =
     occurrences "ham" word emails labels).
Proof.
  intros Hn. destruct (train_reads emails labels ls s word Hn) as [Hs Hh].
  split; [exact Hs|]. split; [exact Hh|].
  intros ->. destruct (train_reads emails labels ls init word Hn) as [Hs' Hh'].
  split; [exact Hs'|exact Hh'].
Qed.

Lemma word_counts_after_train_witness :
  dd_read 0 (spam_word_count
    (train [["a"; "b"; "a"]; ["a"]] ["spam"; "ham"] false init).2) "a" = 2.
Proof.
  destruct (word_counts_after_train init [["a"; "b"; "a"]; ["a"]]
              ["spam"; "ham"] false "a" ltac:(discriminate)) as (_ & _ & H).
  destruct (H eq_refl) as [Hs _]. rewrite Hs. reflexivity.
Defined.

(** ** Sequences of different lengths *)

Lemma occurrences_app_emails l word emails labels extra :
  length emails = length labels →
  occurrences l word (emails ++ extra) labels = occurrences l word emails labels.
Proof.
  revert labels. induction emails as [|email emails IH]; intros [|label labels] Hlen;
    try discriminate Hlen.
  - by destruct extra.
  - cbn [app]. rewrite !occurrences_cons, IH; [reflexivity|].
    by injection Hlen.
Qed.

Lemma occurrences_app_labels l word emails labels extra :
  length emails = length labels →
  occurrences l word emails (labels ++ extra) = occurrences l word emails labels.
Proof.
  revert labels. induction emails as [|email emails IH]; intros [|label labels] Hlen;
    try discriminate Hlen.
  - reflexivity.
  - cbn [app]. rewrite !occurrences_cons, IH; [reflexivity|].
    by injection Hlen.
Qed.

Lemma count_label_app l labels extra :
  count_label l (labels ++ extra) = count_label l labels + count_label l extra.
Proof.
  induction labels as [|x labels IH]; [reflexivity|].
  cbn [app]. rewrite !count_label_cons, IH. lia.
Qed.

(** X3: [train] does not compare the lengths of its two arguments.
    [total_emails] is the number of emails and the class counters count
    all the labels, but words are counted over [zip(emails, labels)] only:
    emails beyond the last label raise [total_emails] and leave every word
    count as it would be without them, and labels beyond the last email
    raise the class counters and leave every word count as it would be
    without them. *)
Theorem train_unequal_lengths s emails labels ls extra_emails extra_labels word :
  length emails = length labels →
  length emails ≠ 0 →
  let s0 := (train emails labels ls s).2 in
  let s1 := (train (emails ++ extra_emails) labels ls s).2 in
  let s2 := (train emails (labels ++ extra_labels) ls s).2 in
  total_emails s1 = total_emails s0 + length extra_emails ∧
  spam_email_count s1 = spam_email_count s0 ∧
  ham_email_count s1 = ham_email_count s0 ∧
  dd_read 0 (spam_word_count s1) word = dd_read 0 (spam_word_count s0) word ∧
  dd_read 0 (ham_word_count s1) word = dd_read 0 (ham_word_count s0) word ∧
  total_emails s2 = total_emails s0 ∧
  spam_email_count s2 =
    spam_email_count s0 + length (filter (λ label, label = "spam") extra_labels) ∧
  ham_email_count s2 =
    ham_email_count s0 + length (filter (λ label, label = "ham") extra_labels) ∧
  dd_read 0 (spam_word_count s2) word = dd_read 0 (spam_word_count s0) word ∧
  dd_read 0 (ham_word_count s2) word = dd_read 0 (ham_word_count s0) word.
Proof.
  intros Hlen Hn s0 s1 s2.
  assert (length (emails ++ extra_emails) ≠ 0) as Hn1
    by (rewrite length_app; lia).
  destruct (train_scalars emails labels ls s Hn) as (Cs0 & Ch0 & Ct0 & _).
  destruct (train_scalars (emails ++ extra_emails) labels ls s Hn1)
    as (Cs1 & Ch1 & Ct1 & _).
  destruct (train_scalars emails (labels ++ extra_labels) ls s Hn)
    as (Cs2 & Ch2 & Ct2 & _).
  destruct (train_reads emails labels ls s word Hn) as [Rs0 Rh0].
  destruct (train_reads (emails ++ extra_emails) labels ls s word Hn1) as [Rs1 Rh1].
  destruct (train_reads emails (labels ++ extra_labels) ls s word Hn) as [Rs2 Rh2].
  fold s0 in Cs0, Ch0, Ct0, Rs0, Rh0. fold s1 in Cs1, Ch1, Ct1, Rs1, Rh1.
  fold s2 in Cs2, Ch2, Ct2, Rs2, Rh2. clearbody s0 s1 s2.
  rewrite Cs0, Ch0, Ct0, Cs1, Ch1, Ct1, Cs2, Ch2, Ct2, Rs0, Rh0, Rs1, Rh1, Rs2, Rh2.
  rewrite !occurrences_app_emails, !occurrences_app_labels by exact Hlen.
  rewrite !count_label_app, length_app, <- !count_label_length.
  repeat split; reflexivity.
Qed.

Lemma train_unequal_lengths_witness :
  total_emails (train [["a"]; ["b"]] ["spam"] true init).2 = 2 ∧
  spam_email_count (train [["a"]] ["spam"; "spam"; "ham"] true init).2 = 2.
Proof.
  destruct (train_unequal_lengths init [["a"]] ["spam"] true [["b"]]
              ["spam"; "ham"] "a" eq_refl ltac:(discriminate))
    as (Ht & _ & _ & _ & _ & _ & Hs & _).
  split; [exact Ht|exact Hs].
Defined.

(** ** Labels that are neither "spam" nor "ham" *)

Lemma count_label_others labels :
  count_label "spam" labels + count_label "ham" labels
  + length (filter (λ label, label ≠ "spam" ∧ label ≠ "ham") labels)
  = length labels.
Proof.
  induction labels as [|x labels IH]; [reflexivity|].
  rewrite !count_label_cons, filter_cons. cbn [length].
  destruct (decide (x = "spam")) as [->|Hs].
  - rewrite decide_False by (intros [= ]).
    rewrite decide_False by (intros [H _]; by destruct H). lia.
  - destruct (decide (x = "ham")) as [->|Hh].
    + rewrite decide_False by (intros [_ H]; by destruct H). lia.
    + rewrite decide_True by (by split). cbn [length]. lia.
Qed.

(** X4: a label other than "spam" and "ham" is counted in [total_emails]
    and in neither class.  After [train] on a non-empty batch of equally
    many emails and labels, the two class counters and the number of such
    labels add up to [total_emails]; as soon as one such label is present
    the two class counters together stay below [total_emails], and so
    does each of them, which puts both priors strictly below 1. *)
Theorem unrecognised_labels s emails labels ls :
  length emails = length labels →
  length emails ≠ 0 →
  let s' := (train emails labels ls s).2 in
  spam_email_count s' + ham_email_count s'
  + length (filter (λ label, label ≠ "spam" ∧ label ≠ "ham") labels)
  = total_emails s' ∧
  ((∃ label, label ∈ labels ∧ label ≠ "spam" ∧ label ≠ "ham") →
   spam_email_count s' + ham_email_count s' < total_emails s' ∧
   p_spam s' = quotient (spam_email_count s') (total_emails s') ∧
   p_ham s' = quotient (ham_email_count s') (total_emails s') ∧
   (p_spam s' < 1)%Qc ∧ (p_ham s' < 1)%Qc).
Proof.
  intros Hlen Hn s'.
  destruct (train_scalars emails labels ls s Hn) as (Cs & Ch & Ct & Ps & Ph).
  fold s' in Cs, Ch, Ct, Ps, Ph. clearbody s'.
  pose proof (count_label_others labels) as Hsum.
  rewrite Cs, Ch, Ct, Ps, Ph.
  split; [lia|].
  intros (label & Hin & Hs & Hh).
  assert (label ∈ filter (λ label, label ≠ "spam" ∧ label ≠ "ham") labels) as Hf
    by (apply list_elem_of_filter; by repeat split).
  assert (count_label "spam" labels + count_label "ham" labels < length emails)
    as Hlt.
  { destruct (filter (λ label, label ≠ "spam" ∧ label ≠ "ham") labels) as [|y f].
    - by apply not_elem_of_nil in Hf.
    - cbn [length] in Hsum. lia. }
  split; [exact Hlt|]. split; [reflexivity|]. split; [reflexivity|].
  split; apply quotient_lt_1; lia.
Qed.

Lemma unrecognised_labels_witness :
  let s' := (train [["a"]; ["b"]; ["c"]] ["spam"; "ham"; "junk"] true init).2 in
  spam_email_count s' + ham_email_count s' < total_emails s' ∧
  (p_spam s' < 1)%Qc ∧ (p_ham s' < 1)%Qc.
Proof.
  intros s'.
  destruct (unrecognised_labels init [["a"]; ["b"]; ["c"]]
              ["spam"; "ham"; "junk"] true eq_refl ltac:(discriminate))
    as (_ & H).
  destruct H as (Hlt & _ & _ & Hs & Hh).
  - exists "junk". split.
    + apply elem_of_cons. right. apply elem_of_cons. right.
      apply elem_of_cons. by left.
    + split; discriminate.
  - split; [exact Hlt|]. split; [exact Hs|exact Hh].
Defined.

(** ** When [train] raises *)

(** X5: the only exception [train] raises is [ZeroDivisionError], and it
    raises it in exactly two situations: [emails] is empty (line 74), or
    smoothing is off, one of the labels "spam" and "ham" does not occur in
    [labels], and the vocabulary is not empty (line 98 or 99).  In
    particular a call with Laplace smoothing on a non-empty batch always
    returns, and so does a call whose emails hold no token at all. *)
Theorem train_raises_iff s emails labels ls :
  ((train emails labels ls s).1 = Returns () ∨
   (train emails labels ls s).1 = Raises ZeroDivisionError) ∧
  ((train emails labels ls s).1 = Raises ZeroDivisionError ↔
   emails = [] ∨
   (ls = false ∧
    (length (filter (λ label, label = "spam") labels) = 0 ∨
     length (filter (λ label, label = "ham") labels) = 0) ∧
    words (train emails labels ls s).2 ≠ ∅)).
Proof.
  rewrite <- !count_label_length.
  destruct (decide (length emails = 0)) as [Hn|Hn].
  { rewrite train_run. unfold train_result. rewrite decide_True by exact Hn.
    split; [by right|]. split; [intros _; left; by destruct emails|reflexivity]. }
  rewrite train_words by exact Hn.
  rewrite train_run. unfold train_result. rewrite decide_False by exact Hn.
  destruct (prepared_frame emails labels s) as (_ & Ps & Ph & _).
  change (dom (tally "spam" emails labels (spam_word_count s))
          ∪ dom (tally "ham" emails labels (ham_word_count s)))
    with (words (prepared emails labels s)).
  revert Ps Ph. generalize (prepared emails labels s) as s0. intros s0 Ps Ph.
  rewrite <- Ps, <- Ph.
  destruct ls.
  { cbn [orb fst]. split; [by left|]. split; [intros [=]|].
    intros [->|(H & _)]; [by destruct Hn|discriminate H]. }
  rewrite orb_false_l. case_bool_decide as Hc.
  { cbn [fst]. split; [by left|]. split; [intros [=]|].
    intros [->|(_ & [H|H] & _)]; [by destruct Hn|lia|lia]. }
  destruct (elements (words s0)) as [|w ws] eqn:Ew.
  - cbn [fst]. split; [by left|]. split; [intros [=]|].
    intros [->|(_ & _ & H)]; [by destruct Hn|]. destruct H.
    apply elements_empty_inv in Ew. by apply leibniz_equiv.
  - cbn [fst]. split; [by right|]. split; [|reflexivity].
    intros _. right. split; [reflexivity|]. split.
    + destruct (decide (spam_email_count s0 = 0)); [by left|].
      destruct (decide (ham_email_count s0 = 0)); [by right|]. by destruct Hc.
    + intros E. rewrite E, elements_empty in Ew. discriminate Ew.
Qed.

(** ** The keys of the dictionaries *)

Lemma elem_of_dom_estimated ls ws s w :
  (w ∈ dom (spam_word_count (estimated ls ws s)) ↔
   w ∈ dom (spam_word_count s) ∨ w ∈ ws) ∧
  (w ∈ dom (ham_word_count (estimated ls ws s)) ↔
   w ∈ dom (ham_word_count s) ∨ w ∈ ws) ∧
  (w ∈ dom (p_word_given_spam (estimated ls ws s)) ↔
   w ∈ dom (p_word_given_spam s) ∨ w ∈ ws) ∧
  (w ∈ dom (p_word_given_ham (estimated ls ws s)) ↔
   w ∈ dom (p_word_given_ham s) ∨ w ∈ ws).
Proof.
  revert s. induction ws as [|x ws IH]; intros s.
  - cbn [estimated fold_left]. pose proof (not_elem_of_nil w). tauto.
  - change (estimated ls (x :: ws) s) with (estimated ls ws (estimated_word ls s x)).
    destruct (IH (estimated_word ls s x)) as (H1 & H2 & H3 & H4).
    rewrite H1, H2, H3, H4. clear IH H1 H2 H3 H4.
    cbn [estimated_word spam_word_count ham_word_count p_word_given_spam
         p_word_given_ham with_p_word_given_ham with_ham_word_count
         with_p_word_given_spam with_spam_word_count].
    rewrite !elem_of_dom_dd_touch, !dom_insert_L, !elem_of_union,
      !elem_of_singleton, elem_of_cons. tauto.
Qed.

Lemma trained_keys s emails labels ls s' :
  train emails labels ls s = (Returns (), s') →
  dom (spam_word_count s') = words s' ∧
  dom (ham_word_count s') = words s' ∧
  dom (p_word_given_spam s') = dom (p_word_given_spam s) ∪ words s' ∧
  dom (p_word_given_ham s') = dom (p_word_given_ham s) ∪ words s'.
Proof.
  intros (Hn & -> & _)%train_returns_inv.
  rewrite estimated_words.
  assert (∀ w, w ∈ words (prepared emails labels s) ↔
               w ∈ dom (spam_word_count (prepared emails labels s)) ∨
               w ∈ dom (ham_word_count (prepared emails labels s))) as Hwords
    by (intros w; apply elem_of_union).
  assert (p_word_given_spam (prepared emails labels s) = p_word_given_spam s)
    as Es by reflexivity.
  assert (p_word_given_ham (prepared emails labels s) = p_word_given_ham s)
    as Eh by reflexivity.
  revert Hwords Es Eh. generalize (prepared emails labels s) as s0.
  intros s0 Hwords Es Eh.
  repeat split; apply set_eq; intros w;
    destruct (elem_of_dom_estimated ls (elements (words s0)) s0 w)
      as (H1 & H2 & H3 & H4);
    rewrite ?H1, ?H2, ?H3, ?H4, ?elem_of_union, ?elem_of_elements, ?Es, ?Eh;
    specialize (Hwords w); tauto.
Qed.

(** X6: after a call of [train] that returns, [spam_word_count] and
    [ham_word_count] have exactly the words of the vocabulary as keys (the
    last loop reads both of them at every word, and a [defaultdict] read
    inserts the key), and the two probability tables have the keys they
    had before the call and the words of the vocabulary. *)
Theorem dictionary_keys_after_train s emails labels ls s' :
  train emails labels ls s = (Returns (), s') →
  dom (spam_word_count s') = words s' ∧
  dom (ham_word_count s') = words s' ∧
  dom (p_word_given_spam s') = dom (p_word_given_spam s) ∪ words s' ∧
  dom (p_word_given_ham s') = dom (p_word_given_ham s) ∪ words s'.
Proof. apply trained_keys. Qed.

Lemma dictionary_keys_after_train_witness :
  dom (spam_word_count
         (train [["buy"]; ["hello"]] ["spam"; "ham"] false init).2) =
  words (train [["buy"]; ["hello"]] ["spam"; "ham"] false init).2.
Proof.
  destruct (dictionary_keys_after_train init [["buy"]; ["hello"]]
              ["spam"; "ham"] false
              (train [["buy"]; ["hello"]] ["spam"; "ham"] false init).2)
    as (H & _).
  - vm_compute. reflexivity.
  - exact H.
Defined.

(** ** The order in which the vocabulary is visited *)

Lemma dd_touch_comm {V} (dflt : V) (d : gmap string V) a b :
  dd_touch dflt (dd_touch dflt d a) b = dd_touch dflt (dd_touch dflt d b) a.
Proof.
  destruct (decide (a = b)) as [->|Hne]; [reflexivity|].
  unfold dd_touch.
  destruct (d !! a) eqn:Ea, (d !! b) eqn:Eb;
    rewrite ?Ea, ?Eb, ?lookup_insert_ne, ?Ea, ?Eb by done; try reflexivity.
  by apply insert_insert_ne.
Qed.

Lemma estimated_word_comm ls s a b :
  estimated_word ls (estimated_word ls s a) b =
  estimated_word ls (estimated_word ls s b) a.
Proof.
  destruct (decide (a = b)) as [->|Hne]; [reflexivity|].
  unfold estimated_word.
  cbn [spam_word_count ham_word_count p_word_given_spam p_word_given_ham
       spam_email_count ham_email_count total_emails p_spam p_ham words
       with_p_word_given_ham with_ham_word_count with_p_word_given_spam
       with_spam_word_count].
  rewrite !dd_read_touch.
  rewrite (dd_touch_comm 0 (spam_word_count s) a b).
  rewrite (dd_touch_comm 0 (ham_word_count s) a b).
  rewrite (insert_insert_ne (p_word_given_spam s) a b) by done.
  rewrite (insert_insert_ne (p_word_given_ham s) a b) by done.
  reflexivity.
Qed.

Lemma estimated_permutation ls ws1 ws2 s :
  ws1 ≡ₚ ws2 → estimated ls ws1 s = estimated ls ws2 s.
Proof.
  intros Hp. revert s.
  induction Hp as [|x l1 l2 _ IH|x y l|l1 l2 l3 _ IH1 _ IH2]; intros s.
  - reflexivity.
  - apply IH.
  - cbn [estimated fold_left]. by rewrite estimated_word_comm.
  - by rewrite IH1.
Qed.

(** X7: the model does not depend on the order in which
    [for word in self.words] visits the set.  Visiting the same words in
    two different orders leaves the same instance behind, with smoothing
    always and without smoothing whenever both class counters are
    non-zero. *)
Theorem last_loop_order_independent s ws1 ws2 :
  ws1 ≡ₚ ws2 →
  for_each ws1 smoothed_word s = for_each ws2 smoothed_word s ∧
  (spam_email_count s ≠ 0 → ham_email_count s ≠ 0 →
   for_each ws1 unsmoothed_word s = for_each ws2 unsmoothed_word s).
Proof.
  intros Hp. split.
  - rewrite !smoothed_loop_run. f_equal. by apply estimated_permutation.
  - intros Hs Hh. rewrite !unsmoothed_loop_run by assumption.
    f_equal. by apply estimated_permutation.
Qed.

Lemma last_loop_order_independent_witness :
  for_each ["a"; "b"] smoothed_word init = for_each ["b"; "a"] smoothed_word init.
Proof.
  destruct (last_loop_order_independent init ["a"; "b"] ["b"; "a"]) as [H _].
  - apply perm_swap.
  - exact H.
Defined.

(** ** What [predict] does to the instance *)

Lemma dd_touch_id {V} (dflt : V) (d : gmap string V) k :
  k ∈ dom d → dd_touch dflt d k = d.
Proof. intros [v Hv]%elem_of_dom. unfold dd_touch. by rewrite Hv. Qed.

Lemma for_fold_pure {A B} (f : B → A → B) (body : B → A → M B) xs acc s :
  (∀ acc x, body acc x s = (Returns (f acc x), s)) →
  for_fold xs acc body s = (Returns (fold_left f xs acc), s).
Proof.
  intros Hbody. revert acc. induction xs as [|x xs IH]; intros acc; [reflexivity|].
  cbn [for_fold fold_left]. unfold bind. rewrite Hbody. apply IH.
Qed.

Section ScoringFrame.
Context {num : Type}.
Variable load : Qc → num.
Variable combine : num → num → num.
Variable gt : num → num → bool.
Variable s : classifier.
Hypothesis keys_present :
  ∀ word, word ∈ words s →
    word ∈ dom (p_word_given_spam s) ∧ word ∈ dom (p_word_given_ham s).

Lemma score_word_pure scores word :
  score_word load combine scores word s =
  (Returns (scores_after_word load combine s scores word), s).
Proof.
  unfold score_word, scores_after_word, bind, gets.
  destruct (decide (word ∈ words s)) as [Hin|Hin]; [|reflexivity].
  destruct (keys_present word Hin) as [Hs Hh].
  unfold getitem_p_word_given_spam, getitem_p_word_given_ham, ret.
  cbn [p_word_given_ham p_word_given_spam with_p_word_given_spam].
  rewrite (dd_touch_id _ _ _ Hs), (dd_touch_id _ _ _ Hh).
  by destruct s.
Qed.

Lemma score_email_pure email :
  score_email load combine email s =
  (Returns (email_scores load combine s email), s).
Proof.
  unfold score_email, bind, gets. cbn beta iota.
  apply for_fold_pure, score_word_pure.
Qed.

Lemma predict_loop_pure emails :
  predict_loop load combine gt emails s =
  (Returns ((λ email, label_of (gt (email_scores load combine s email).1
                                   (email_scores load combine s email).2))
            <$> emails), s).
Proof.
  unfold predict_loop.
  rewrite (for_fold_pure
    (λ y_pred email, y_pred ++
       [label_of (gt (email_scores load combine s email).1
                     (email_scores load combine s email).2)])).
  - f_equal. f_equal.
    enough (∀ acc,
      fold_left (λ y_pred email, y_pred ++
         [label_of (gt (email_scores load combine s email).1
                       (email_scores load combine s email).2)]) emails acc =
      acc ++ ((λ email, label_of (gt (email_scores load combine s email).1
                                     (email_scores load combine s email).2))
              <$> emails)) as H by apply (H []).
    induction emails as [|email emails IH]; intros acc.
    + cbn [fold_left fmap list_fmap]. by rewrite app_nil_r.
    + cbn [fold_left fmap list_fmap]. rewrite IH, <- app_assoc. reflexivity.
  - intros y_pred email. unfold label_email, bind.
    rewrite score_email_pure. unfold label_of, ret.
    by destruct (gt _ _).
Qed.
End ScoringFrame.

(** X8: [predict] leaves a trained model as it is.  After a call of
    [train] that returned, a call of [predict], in either mode and on any
    documents, returns with every attribute of the instance unchanged:
    each [defaultdict] read it makes finds its key. *)
Theorem predict_leaves_trained_model s emails labels ls m docs prevent_underflow :
  train emails labels ls s = (Returns (), m) →
  ∃ y_pred, predict docs prevent_underflow m = (Returns y_pred, m).
Proof.
  intros Htrain.
  destruct (trained_keys _ _ _ _ _ Htrain) as (_ & _ & Ks & Kh).
  assert (∀ word, word ∈ words m →
            word ∈ dom (p_word_given_spam m) ∧ word ∈ dom (p_word_given_ham m))
    as Hkeys.
  { intros word Hword. rewrite Ks, Kh, !elem_of_union. split; by right. }
  unfold predict. destruct prevent_underflow; eexists;
    by apply predict_loop_pure.
Qed.

Lemma predict_leaves_trained_model_witness :
  let m := (train [["buy"]; ["hello"]] ["spam"; "ham"] true init).2 in
  ∃ y_pred, predict [["buy"; "zzz"]] false m = (Returns y_pred, m).
Proof.
  intros m.
  apply (predict_leaves_trained_model init [["buy"]; ["hello"]]
           ["spam"; "ham"] true m).
  vm_compute. reflexivity.
Defined.

Lemma email_scores_same_reads {num} (load : Qc → num) (combine : num → num → num)
    s s' email :
  same_reads s s' →
  email_scores load combine s' email = email_scores load combine s email.
Proof.
  intros (Hw & Hps & Hph & Hs & Hh). unfold email_scores. rewrite Hps, Hph.
  generalize (load (p_spam s), load (p_ham s)) as acc.
  induction email as [|word email IH]; intros acc; [reflexivity|].
  cbn [fold_left]. rewrite IH. f_equal.
  unfold scores_after_word. by rewrite Hw, Hs, Hh.
Qed.

Lemma predict_outcome_same_reads s s' docs prevent_underflow :
  same_reads s s' →
  (predict docs prevent_underflow s').1 = (predict docs prevent_underflow s).1.
Proof.
  intros Hsame. unfold predict. destruct prevent_underflow.
  - destruct (predict_loop_run np_log logval_add logval_gt s docs) as (? & -> & _).
    destruct (predict_loop_run np_log logval_add logval_gt s' docs) as (? & -> & _).
    cbn [fst]. f_equal. apply list_fmap_ext. intros _ doc _.
    by rewrite (email_scores_same_reads _ _ s s').
  - destruct (predict_loop_run to_float b64_mul b64_gt s docs) as (? & -> & _).
    destruct (predict_loop_run to_float b64_mul b64_gt s' docs) as (? & -> & _).
    cbn [fst]. f_equal. apply list_fmap_ext. intros _ doc _.
    by rewrite (email_scores_same_reads _ _ s s').
Qed.

(** X9: a call of [predict] never changes what a later call returns.
    Even on an instance where [predict] inserts default entries into the
    probability tables (after a [train] that raised), predicting any
    documents in any mode after an earlier [predict] gives the labels it
    would have given without the earlier call; in particular the same
    call made twice returns the same labels. *)
Theorem predict_then_predict s docs1 mode1 docs2 mode2 :
  (predict docs2 mode2 (predict docs1 mode1 s).2).1 = (predict docs2 mode2 s).1 ∧
  (predict docs1 mode1 (predict docs1 mode1 s).2).1 = (predict docs1 mode1 s).1.
Proof.
  assert (same_reads s (predict docs1 mode1 s).2) as Hsame.
  { unfold predict. destruct mode1.
    - by destruct (predict_loop_run np_log logval_add logval_gt s docs1)
        as (? & -> & ?).
    - by destruct (predict_loop_run to_float b64_mul b64_gt s docs1)
        as (? & -> & ?). }
  split; by apply predict_outcome_same_reads.
Qed.

(** X10: words outside the vocabulary are skipped.  Two batches of
    documents that agree once every out-of-vocabulary token is removed get
    the same labels, in either mode. *)
Theorem predict_ignores_unknown_words s docs1 docs2 prevent_underflow :
  scored s <$> docs1 = scored s <$> docs2 →
  (predict docs1 prevent_underflow s).1 = (predict docs2 prevent_underflow s).1.
Proof.
  intros Hscored. unfold predict. destruct prevent_underflow.
  - destruct (predict_loop_run np_log logval_add logval_gt s docs1) as (? & -> & _).
    destruct (predict_loop_run np_log logval_add logval_gt s docs2) as (? & -> & _).
    cbn [fst]. f_equal.
    rewrite (list_fmap_ext _
      ((λ tokens, label_of (logval_gt
          (class_score np_log logval_add (p_spam s) (pw_spam s) tokens)
          (class_score np_log logval_add (p_ham s) (pw_ham s) tokens)))
       ∘ scored s) docs1)
      by (intros _ doc _; by rewrite email_scores_class_score).
    rewrite (list_fmap_ext _
      ((λ tokens, label_of (logval_gt
          (class_score np_log logval_add (p_spam s) (pw_spam s) tokens)
          (class_score np_log logval_add (p_ham s) (pw_ham s) tokens)))
       ∘ scored s) docs2)
      by (intros _ doc _; by rewrite email_scores_class_score).
    by rewrite !list_fmap_compose, Hscored.
  - destruct (predict_loop_run to_float b64_mul b64_gt s docs1) as (? & -> & _).
    destruct (predict_loop_run to_float b64_mul b64_gt s docs2) as (? & -> & _).
    cbn [fst]. f_equal.
    rewrite (list_fmap_ext _
      ((λ tokens, label_of (b64_gt
          (class_score to_float b64_mul (p_spam s) (pw_spam s) tokens)
          (class_score to_float b64_mul (p_ham s) (pw_ham s) tokens)))
       ∘ scored s) docs1)
      by (intros _ doc _; by rewrite email_scores_class_score).
    rewrite (list_fmap_ext _
      ((λ tokens, label_of (b64_gt
          (class_score to_float b64_mul (p_spam s) (pw_spam s) tokens)
          (class_score to_float b64_mul (p_ham s) (pw_ham s) tokens)))
       ∘ scored s) docs2)
      by (intros _ doc _; by rewrite email_scores_class_score).
    by rewrite !list_fmap_compose, Hscored.
Qed.

Lemma predict_ignores_unknown_words_witness :
  let m := (train [["buy"]; ["hello"]] ["spam"; "ham"] true init).2 in
  (predict [["zzz"; "buy"; "qqq"]] false m).1 = (predict [["buy"]] false m).1.
Proof.
  intros m.
  apply (predict_ignores_unknown_words m [["zzz"; "buy"; "qqq"]] [["buy"]] false).
  vm_compute. reflexivity.
Defined.

(** X11: [predict] on an instance that was never trained does not raise:
    the vocabulary is empty, both scores are those of the priors 0 and 0,
    the comparison is false, and every document is labelled "ham", in
    either mode; the instance is left as [__init__] made it. *)
Theorem predict_before_train docs prevent_underflow :
  predict docs prevent_underflow init =
  (Returns (replicate (length docs) "ham"), init).
Proof.
  assert (∀ word, word ∈ words init →
            word ∈ dom (p_word_given_spam init) ∧ word ∈ dom (p_word_given_ham init))
    as Hkeys by (intros word Hword; by apply not_elem_of_empty in Hword).
  assert (∀ doc, scored init doc = []) as Hscored.
  { intros doc. unfold scored. induction doc as [|w doc IH]; [reflexivity|].
    rewrite filter_cons, decide_False; [exact IH|]. apply not_elem_of_empty. }
  assert (∀ A (f : list string → A) (x : A),
            (∀ doc, f doc = x) → f <$> docs = replicate (length docs) x) as Hconst.
  { intros A f x Hf. induction docs as [|doc ds IH]; [reflexivity|].
    cbn [fmap list_fmap length replicate]. by rewrite Hf, <- IH. }
  unfold predict. destruct prevent_underflow.
  - rewrite (predict_loop_pure _ _ _ _ Hkeys). f_equal. f_equal.
    apply Hconst. intros doc.
    rewrite email_scores_class_score, Hscored. unfold class_score.
    cbn [fmap list_fmap fold_left fst snd p_spam p_ham init].
    by rewrite np_log_0.
  - rewrite (predict_loop_pure _ _ _ _ Hkeys). f_equal. f_equal.
    apply Hconst. intros doc.
    rewrite email_scores_class_score, Hscored. reflexivity.
Qed.

(** ** The extreme values of [accuracy] *)

Lemma quotient_eq_1 a b : b ≠ 0 → a ≤ b → quotient a b = 1%Qc → a = b.
Proof.
  intros Hb Hab E. destruct (decide (a = b)) as [|Hne]; [assumption|].
  assert (a < b) as Hlt by lia. apply quotient_lt_1 in Hlt.
  rewrite E in Hlt. by apply Qclt_not_eq in Hlt.
Qed.

Lemma quotient_eq_0 a b : b ≠ 0 → quotient a b = 0%Qc → a = 0.
Proof.
  intros Hb E. destruct (decide (a = 0)) as [|Ha]; [assumption|].
  pose proof (quotient_pos a b Ha Hb) as H. rewrite E in H.
  by apply Qclt_not_eq in H.
Qed.

Lemma agreements_full y_true y_pred :
  agreements y_true y_pred = length y_true ↔
  take (length y_true) y_pred = y_true.
Proof.
  revert y_pred. induction y_true as [|yt y_true IH]; intros [|yp y_pred].
  - by split.
  - by split.
  - rewrite agreements_nil_r. by split.
  - rewrite agreements_cons. cbn [length take].
    pose proof (agreements_le_l y_true y_pred) as Hle.
    destruct (decide (yt = yp)) as [->|Hne].
    + split.
      * intros H. f_equal. apply IH. lia.
      * intros [= H]. apply IH in H. lia.
    + split; [lia|]. intros [= H _]. by destruct Hne.
Qed.

Lemma agreements_none y_true y_pred :
  agreements y_true y_pred = 0 ↔
  ∀ i yt yp, y_true !! i = Some yt → y_pred !! i = Some yp → yt ≠ yp.
Proof.
  revert y_pred. induction y_true as [|yt y_true IH]; intros [|yp y_pred].
  - split; [|reflexivity]. intros _ i ? ? H. by destruct i.
  - split; [|reflexivity]. intros _ i ? ? H. by destruct i.
  - rewrite agreements_nil_r. split; [|reflexivity]. intros _ i ? ? _ H.
    by destruct i.
  - rewrite agreements_cons. split.
    + intros H [|i] a b Ha Hb.
      * injection Ha as <-. injection Hb as <-.
        destruct (decide (yt = yp)); [lia|assumption].
      * apply (proj1 (IH y_pred)) with i; [|assumption..].
        destruct (decide (yt = yp)); lia.
    + intros H. rewrite decide_False by (by apply (H 0)).
      rewrite Nat.add_0_l. apply IH. intros i a b Ha Hb.
      by apply (H (S i)).
Qed.

(** X12: for a non-empty [y_true], [accuracy] returns 1 exactly when
    [y_pred] starts with [y_true] (for sequences of equal length: when
    they are equal), and returns 0 exactly when the two sequences agree at
    no position. *)
Theorem accuracy_extremes s y_true y_pred :
  y_true ≠ [] →
  ((accuracy y_true y_pred s).1 = Returns 1%Qc ↔
   take (length y_true) y_pred = y_true) ∧
  ((accuracy y_true y_pred s).1 = Returns 0%Qc ↔
   ∀ i yt yp, y_true !! i = Some yt → y_pred !! i = Some yp → yt ≠ yp).
Proof.
  intros Hne. assert (length y_true ≠ 0) as Hn by (by destruct y_true).
  rewrite accuracy_run, decide_False by exact Hn. cbn [fst].
  rewrite <- agreements_full, <- agreements_none.
  pose proof (agreements_le_l y_true y_pred) as Hle.
  assert (∀ a b : Qc, @Returns Qc a = Returns b → a = b) as Hinj.
  { intros a b E.
    exact (f_equal (λ o, match o with Returns x => x | Raises _ => a end) E). }
  split; split.
  - intros E%Hinj. by apply quotient_eq_1 in E.
  - intros ->. f_equal. by apply quotient_diag.
  - intros E%Hinj. by apply quotient_eq_0 in E.
  - intros ->. f_equal. apply quotient_0_l.
Qed.

Lemma accuracy_extremes_witness :
  (accuracy ["spam"; "ham"] ["spam"; "ham"; "ham"] init).1 = Returns 1%Qc.
Proof.
  destruct (accuracy_extremes init ["spam"; "ham"] ["spam"; "ham"; "ham"])
    as [[_ H] _].
  - discriminate.
  - apply H. reflexivity.
Defined.

(** ** Bounds on the stored probabilities *)

Lemma count_label_le_length l labels : count_label l labels ≤ length labels.
Proof. rewrite count_label_length. apply length_filter. Qed.

Lemma count_labels_le_length labels :
  count_label "spam" labels + count_label "ham" labels ≤ length labels.
Proof. pose proof (count_label_others labels). lia. Qed.

(** X13: after [train] on a non-empty batch with no more labels than
    emails, both priors lie between 0 and 1 and their sum is at most 1,
    whether the call returns or stops in its last loop.  (With more labels
    than emails a prior can exceed 1: [train] does not compare the
    lengths.) *)
Theorem prior_bounds s emails labels ls :
  length emails ≠ 0 →
  length labels ≤ length emails →
  let s' := (train emails labels ls s).2 in
  (0 ≤ p_spam s')%Qc ∧ (p_spam s' ≤ 1)%Qc ∧
  (0 ≤ p_ham s')%Qc ∧ (p_ham s' ≤ 1)%Qc ∧
  (p_spam s' + p_ham s' ≤ 1)%Qc.
Proof.
  intros Hn Hlen s'.
  destruct (train_scalars emails labels ls s Hn) as (_ & _ & _ & Ps & Ph).
  fold s' in Ps, Ph. clearbody s'. rewrite Ps, Ph, quotient_add.
  pose proof (count_label_le_length "spam" labels).
  pose proof (count_label_le_length "ham" labels).
  pose proof (count_labels_le_length labels).
  split; [apply quotient_nonneg|]. split; [apply quotient_le_1; lia|].
  split; [apply quotient_nonneg|]. split; [apply quotient_le_1; lia|].
  apply quotient_le_1; lia.
Qed.

Lemma prior_bounds_witness :
  (p_spam (train [["a"]; ["b"]; ["c"]] ["spam"; "junk"] false init).2 ≤ 1)%Qc.
Proof.
  destruct (prior_bounds init [["a"]; ["b"]; ["c"]] ["spam"; "junk"] false)
    as (_ & H & _).
  - discriminate.
  - simpl. lia.
  - exact H.
Defined.

(** X14: without smoothing, on a fresh instance trained on emails none of
    which repeats a token, every conditional probability of a vocabulary
    word lies between 0 and 1: a word occurs in at most as many emails of
    a class as the class has. *)
Theorem unsmoothed_probability_bounds emails labels s' :
  train emails labels false init = (Returns (), s') →
  Forall NoDup emails →
  ∀ word, word ∈ words s' →
    (0 ≤ pw_spam s' word)%Qc ∧ (pw_spam s' word ≤ 1)%Qc ∧
    (0 ≤ pw_ham s' word)%Qc ∧ (pw_ham s' word ≤ 1)%Qc.
Proof.
  intros Htrain Hnd word Hword.
  destruct (trained_probabilities _ _ _ _ _ word Htrain Hword) as [Hs Hh].
  destruct (trained_reads _ _ _ _ _ word Htrain) as [Rs Rh].
  destruct (trained_counts _ _ _ _ _ Htrain) as (Cs & Ch & _).
  destruct (train_returns_inv _ _ _ _ _ Htrain) as (_ & _ & Hc).
  destruct (Hc eq_refl) as [Hcs Hch].
  { intros E. rewrite E in Hword. by apply not_elem_of_empty in Hword. }
  pose proof (occurrences_le_count "spam" word emails labels Hnd).
  pose proof (occurrences_le_count "ham" word emails labels Hnd).
  cbn [estimate] in Hs, Hh.
  unfold pw_spam, pw_ham, dd_read at 1 2 3 4. rewrite Hs, Hh.
  cbn [default]. rewrite Rs, Rh, Cs, Ch.
  change (dd_read 0 (spam_word_count init) word) with 0.
  change (dd_read 0 (ham_word_count init) word) with 0.
  split; [apply quotient_nonneg|]. split; [apply quotient_le_1; lia|].
  split; [apply quotient_nonneg|]. apply quotient_le_1; lia.
Qed.

Lemma unsmoothed_probability_bounds_witness :
  (pw_spam (train [["buy"; "now"]; ["hello"; "buy"]] ["spam"; "ham"] false init).2
     "buy" ≤ 1)%Qc.
Proof.
  destruct (unsmoothed_probability_bounds [["buy"; "now"]; ["hello"; "buy"]]
              ["spam"; "ham"]
              (train [["buy"; "now"]; ["hello"; "buy"]] ["spam"; "ham"] false init).2)
    with (word := "buy") as (_ & H & _).
  - vm_compute. reflexivity.
  - apply (bool_decide_unpack _). vm_compute. reflexivity.
  - vm_compute. reflexivity.
  - exact H.
Defined.

(** ** Smoothing and log mode *)

(** X15: Laplace smoothing makes log mode safe.  After a [train] with
    smoothing that returned on a batch with at least one "spam" and one
    "ham" label, both log scores of every document are finite (neither
    minus infinity nor nan): no prior and no conditional probability of a
    vocabulary word is 0. *)
Theorem smoothing_keeps_log_scores_finite s emails labels m doc :
  train emails labels true s = (Returns (), m) →
  "spam" ∈ labels → "ham" ∈ labels →
  ∃ x y, log_score_spam m doc = Fin x ∧ log_score_ham m doc = Fin y.
Proof.
  intros Htrain Hspam Hham.
  destruct (trained_counts _ _ _ _ _ Htrain) as (Cs & Ch & _ & Ps & Ph).
  destruct (train_returns_inv _ _ _ _ _ Htrain) as (Hn & _ & _).
  apply count_label_elem_of in Hspam, Hham.
  assert (0 < p_spam m)%Qc as Hps by (rewrite Ps; by apply quotient_pos).
  assert (0 < p_ham m)%Qc as Hph by (rewrite Ph; by apply quotient_pos).
  assert (∀ word, word ∈ scored m doc →
            (0 < pw_spam m word)%Qc ∧ (0 < pw_ham m word)%Qc) as Hpw.
  { intros word [Hword _]%elem_of_scored.
    destruct (trained_probabilities _ _ _ _ _ word Htrain Hword) as [Hs Hh].
    cbn [estimate] in Hs, Hh.
    unfold pw_spam, pw_ham, dd_read. rewrite Hs, Hh. cbn [default].
    split; apply quotient_pos; lia. }
  destruct (log_score_pos (p_spam m) (pw_spam m) (scored m doc) Hps) as [Es _].
  { intros word Hword. by apply Hpw. }
  destruct (log_score_pos (p_ham m) (pw_ham m) (scored m doc) Hph) as [Eh _].
  { intros word Hword. by apply Hpw. }
  eexists _, _. split; [exact Es|exact Eh].
Qed.

Lemma smoothing_keeps_log_scores_finite_witness :
  let m := (train [["buy"; "now"]; ["hello"; "friend"]] ["spam"; "ham"] true init).2 in
  ∃ x y, log_score_spam m ["buy"; "hello"] = Fin x ∧
         log_score_ham m ["buy"; "hello"] = Fin y.
Proof.
  intros m.
  apply (smoothing_keeps_log_scores_finite init
           [["buy"; "now"]; ["hello"; "friend"]] ["spam"; "ham"] m).
  - vm_compute. reflexivity.
  - apply elem_of_cons. by left.
  - apply elem_of_cons. right. apply elem_of_cons. by left.
Defined.

(** ** Probabilities without smoothing *)

(** X16: [train] without smoothing on a batch of equally many emails and
    labels with a "spam" and a "ham" label among them returns, whatever
    the instance held before.  For every word of the vocabulary
    [p_word_given_spam[word]] is
    [spam_word_count[word] / spam_email_count], the divisor being the
    number of "spam" labels and not a number of tokens, and it is 0
    exactly when the count of the word for spam was 0 before the call and
    no email paired with "spam" contains the word; likewise for ham. *)
Theorem unsmoothed_probabilities s emails labels :
  length emails = length labels →
  "spam" ∈ labels → "ham" ∈ labels →
  ∃ s', train emails labels false s = (Returns (), s') ∧
    spam_email_count s' = length (filter (λ label, label = "spam") labels) ∧
    ham_email_count s' = length (filter (λ label, label = "ham") labels) ∧
    ∀ word, word ∈ words s' →
      p_word_given_spam s' !! word =
        Some (quotient (dd_read 0 (spam_word_count s') word) (spam_email_count s')) ∧
      p_word_given_ham s' !! word =
        Some (quotient (dd_read 0 (ham_word_count s') word) (ham_email_count s')) ∧
      (p_word_given_spam s' !! word = Some 0%Qc ↔
       dd_read 0 (spam_word_count s) word = 0 ∧
       occurrences "spam" word emails labels = 0) ∧
      (p_word_given_ham s' !! word = Some 0%Qc ↔
       dd_read 0 (ham_word_count s) word = 0 ∧
       occurrences "ham" word emails labels = 0).
Proof.
  intros Hlen Hspam Hham.
  assert (length emails ≠ 0) as Hn.
  { rewrite Hlen. destruct labels; [|done]. by apply not_elem_of_nil in Hspam. }
  pose proof (train_returns emails labels false s Hn
    (or_intror (conj (count_label_elem_of _ _ Hspam)
                     (count_label_elem_of _ _ Hham)))) as Htrain.
  set (s' := estimated false _ _) in Htrain.
  exists s'. split; [done|]. clearbody s'.
  destruct (trained_counts _ _ _ _ _ Htrain) as (Cs & Ch & _).
  rewrite <- !count_label_length.
  split; [done|]. split; [done|].
  intros word Hword.
  destruct (trained_probabilities _ _ _ _ _ word Htrain Hword) as [Hs Hh].
  destruct (trained_reads _ _ _ _ _ word Htrain) as [Rs Rh].
  cbn [estimate] in Hs, Hh.
  apply count_label_elem_of in Hspam, Hham.
  split; [done|]. split; [done|].
  rewrite Hs, Hh, Rs, Rh, Cs, Ch.
  split; split.
  - intros E%(inj Some). apply quotient_eq_0 in E; [lia|done].
  - intros [-> ->]. by rewrite quotient_0_l.
  - intros E%(inj Some). apply quotient_eq_0 in E; [lia|done].
  - intros [-> ->]. by rewrite quotient_0_l.
Qed.

Lemma unsmoothed_probabilities_witness :
  let emails := [["buy"; "now"]; ["hello"; "friend"]] in
  let labels := ["spam"; "ham"] in
  ∃ s', train emails labels false init = (Returns (), s') ∧
        p_word_given_ham s' !! "buy" = Some 0%Qc.
Proof.
  intros emails labels.
  destruct (unsmoothed_probabilities init emails labels)
    as (s' & Htrain & _ & _ & Hwords).
  - reflexivity.
  - apply elem_of_cons. by left.
  - apply elem_of_cons. right. apply elem_of_cons. by left.
  - exists s'. split; [exact Htrain|].
    assert ("buy" ∈ words s') as Hw.
    { assert (s' = (train emails labels false init).2) as -> by (by rewrite Htrain).
      vm_compute. reflexivity. }
    destruct (Hwords "buy" Hw) as (_ & _ & _ & H0).
    apply H0. split; [reflexivity|]. vm_compute. reflexivity.
Defined.
